(** * gotoken: the OAuth token manager (pkg/oauth/manager.go)

    A shallow embedding of [TokenManager]: its construction from functional
    options, the refresh loop [run], and the caller-facing read operations.

    The loop is one goroutine; all other goroutines only read the manager.
    The embedding is a small-step transition function over a world made of
    the manager struct, the heap of channels that [make(chan struct{})]
    allocates, and the program point of [run].  Callers are modelled by the
    values their operations return when evaluated in a world, so every
    interleaving of a caller with the loop is a choice of the world in which
    the caller's operation takes effect. *)

From Stdlib Require Import ZArith List Lia.
From stdpp Require Import base list gmap strings.

Local Open Scope Z_scope.

(** ** Data model (pkg/oauth/token.go) *)

(** [TokenResponse]: the four fields of the struct.  [ExpiresIn] is a Go
    [int]. *)
Record TokenResponse := mkTokenResponse {
  AccessToken : string;
  ExpiresIn   : Z;
  TokenType   : string;
  Scope       : string
}.

(** A Go [error] value that is not nil: the message it carries. *)
Definition error := string.

(** The result of [TokenProvider.GetNewToken()], a token pointer and an
    error, as [run] reads it: line 80 tests the error alone, so with a
    non-nil error the pointer is not looked at, and with a nil error the
    pointer is taken as it is, nil or not.  [ClientCredentialsProvider]
    never returns a nil pointer with a nil error, the interface allows it. *)
Inductive Acquired :=
| Ok  (token : TokenResponse)    (* a credential, and a nil error *)
| Nil                            (* a nil pointer, and a nil error *)
| Err (err : error).             (* an error *)

(** The pointer [run] goes on with when the error is nil. *)
Definition delivered (r : Acquired) : option (option TokenResponse) :=
  match r with
  | Ok token => Some (Some token)
  | Nil => Some None
  | Err _ => None
  end.

(** What a provider answers on each of the successive calls the loop makes:
    the answer to call number [n], counting from 0.  Each call is taken to
    return. *)
Definition TokenProvider := nat -> Acquired.

(** ** Durations *)

(** [time.Duration] is an [int64] count of nanoseconds. *)
Definition Duration := Z.

Definition Second : Duration := 1000000000.
Definition Minute : Duration := 60 * Second.

(** Two's complement wrap-around of an [int64] result. *)
Definition wrap64 (z : Z) : Z := (z + 2 ^ 63) mod 2 ^ 64 - 2 ^ 63.

(** ** Channels *)

(** A channel is a reference into the heap of channels; the heap records for
    each channel whether it has been closed (nothing is ever sent on
    [tokenReady]).  Index [n] is the [n]-th channel made. *)
Abbreviation chan := nat (only parsing).
Abbreviation Chans := (list bool) (only parsing).

(** [make(chan struct{})]: a fresh, open channel. *)
Definition make_chan (h : Chans) : chan * Chans := (length h, h ++ [false]).

(** [<-c] can proceed: a receive on a closed channel returns at once, a
    receive on an open channel on which nobody sends blocks. *)
Definition recv_ready (h : Chans) (c : chan) : bool :=
  match h !! c with
  | Some closed => closed
  | None => false
  end.

(** [close(c)]; [None] is the run-time panic (close of a closed channel, or of
    no channel). *)
Definition chan_close (h : Chans) (c : chan) : option Chans :=
  match h !! c with
  | Some false => Some (<[c := true]> h)
  | Some true => None
  | None => None
  end.

(** ** The manager *)

(** What a call of the callback does to the loop that makes it: it returns,
    it panics, or it never returns. *)
Inductive CallbackOutcome := Returns | Panics | NeverReturns.

(** A callback [func(token *TokenResponse)]: what its call does, given the
    number of calls of [GetNewToken] made so far (which tells its calls
    apart) and the pointer it is passed.  Its calls are recorded in the
    world's event log.  The callback is taken not to write through the
    pointer. *)
Definition Callback := nat -> option TokenResponse -> CallbackOutcome.

(** [TokenManager], without the provider (which the loop consults through
    [TokenProvider]) and the mutex (every step below is one critical
    section or one statement). *)
Record TokenManager := mkTokenManager {
  currentToken : option TokenResponse;
  refreshTimer : option Duration;
  tokenReady   : chan;
  bufferTime   : Duration;
  refreshTime  : Duration;
  onNewToken   : option Callback
}.

Definition set_currentToken (t : option TokenResponse) (m : TokenManager) :=
  mkTokenManager t (refreshTimer m) (tokenReady m) (bufferTime m)
                 (refreshTime m) (onNewToken m).
Definition set_refreshTimer (d : option Duration) (m : TokenManager) :=
  mkTokenManager (currentToken m) d (tokenReady m) (bufferTime m)
                 (refreshTime m) (onNewToken m).
Definition set_tokenReady (c : chan) (m : TokenManager) :=
  mkTokenManager (currentToken m) (refreshTimer m) c (bufferTime m)
                 (refreshTime m) (onNewToken m).
Definition set_bufferTime (d : Duration) (m : TokenManager) :=
  mkTokenManager (currentToken m) (refreshTimer m) (tokenReady m) d
                 (refreshTime m) (onNewToken m).
Definition set_refreshTime (d : Duration) (m : TokenManager) :=
  mkTokenManager (currentToken m) (refreshTimer m) (tokenReady m)
                 (bufferTime m) d (onNewToken m).
Definition set_onNewToken (cb : option Callback) (m : TokenManager) :=
  mkTokenManager (currentToken m) (refreshTimer m) (tokenReady m)
                 (bufferTime m) (refreshTime m) cb.

(** ** Functional options *)

(** The three option constructors of the package; the fields they write are
    unexported, so these are the options a caller can build. *)
Inductive TokenManagerOption :=
| WithBufferTime  (duration : Duration)
| WithRefreshTime (duration : Duration)
| WithOnNewToken  (callback : option Callback).

(** [option(tm)]. *)
Definition apply_option (o : TokenManagerOption) (m : TokenManager) : TokenManager :=
  match o with
  | WithBufferTime d  => set_bufferTime d m
  | WithRefreshTime d => set_refreshTime d m
  | WithOnNewToken cb => set_onNewToken cb m
  end.

(** ** The refresh loop *)

(** What the loop does that is visible outside the manager struct. *)
Inductive Event :=
| EvLogError (err : error)                      (* log.Printf("Error refreshing token: ...") *)
| EvSleep    (d : Duration)                     (* time.Sleep(d) *)
| EvPublish  (gate : chan) (token : option TokenResponse) (* tm.currentToken = token, with tm.tokenReady = gate *)
| EvCallback (cb : Callback) (token : option TokenResponse) (* tm.onNewToken(token) *)
| EvTimer    (d : Duration).                    (* time.NewTimer(d) has fired *)

(** The run-time panics of [run] other than the one of [close]. *)
Inductive Crash :=
| CallbackPanic                                  (* line 100: the callback panicked *)
| NilDereference.                                (* line 111: token.ExpiresIn on a nil token *)

(** Program points of [run].  The local variable [token] is a pointer and
    may be nil.  The last three are the ends of the loop: an unrecovered
    panic ends the goroutine (and with it the process), a call that never
    returns holds it for ever; the world stays as it was at that point. *)
Inductive Pc :=
| AtGetNewToken                                  (* line 79 *)
| AtRetrySleep                                   (* lines 81-83 *)
| AtStore    (token : option TokenResponse)      (* lines 87-89 *)
| AtSignal   (token : option TokenResponse)      (* lines 92-96 *)
| AtCallback (token : option TokenResponse)      (* lines 99-101 *)
| AtSchedule (token : option TokenResponse)      (* lines 104-116 *)
| AtTimer    (d : Duration)                      (* lines 119-121 *)
| AtNewGate                                      (* lines 124-126 *)
| Panicked                                       (* line 95: close of a closed channel *)
| Crashed    (cause : Crash)                     (* the goroutine died elsewhere *)
| Stuck.                                         (* line 100: the callback never returns *)

Record World := mkWorld {
  tm       : TokenManager;
  chans    : Chans;
  pc       : Pc;
  attempts : nat;          (* calls of GetNewToken made so far *)
  events   : list Event
}.

(** The select statement of lines 92-96: if the gate is already closed the
    receive case is taken and nothing happens, otherwise the default case
    closes it. *)
Definition signalReady (h : Chans) (c : chan) : option Chans :=
  if recv_ready h c then Some h else chan_close h c.

(** Lines 104-116: the delay until the next refresh. *)
Definition run_refreshTime (m : TokenManager) (token : TokenResponse) : Duration :=
  if 0 <? refreshTime m then refreshTime m
  else
    let d := wrap64 (wrap64 (ExpiresIn token * Second) - bufferTime m) in
    if d <? 0 then 5 * Second else d.

(** Lines 99-101 with a callback set: where the loop is after the call. *)
Definition after_callback (outcome : CallbackOutcome) (token : option TokenResponse)
    : Pc :=
  match outcome with
  | Returns => AtSchedule token
  | Panics => Crashed CallbackPanic
  | NeverReturns => Stuck
  end.

(** Lines 104-116 for the pointer [token]: the test of line 105 comes
    first, and only the else branch dereferences the pointer. *)
Definition after_schedule (m : TokenManager) (token : option TokenResponse) : Pc :=
  match token with
  | Some t => AtTimer (run_refreshTime m t)
  | None => if 0 <? refreshTime m then AtTimer (refreshTime m)
            else Crashed NilDereference
  end.

Section Run.

Variable provider : TokenProvider.

(** One step of [run]. *)
Definition step (w : World) : World :=
  match pc w with
  | AtGetNewToken =>
      match provider (attempts w) with
      | Err e =>
          mkWorld (tm w) (chans w) AtRetrySleep (S (attempts w))
                  (events w ++ [EvLogError e])
      | Ok token =>
          mkWorld (tm w) (chans w) (AtStore (Some token)) (S (attempts w)) (events w)
      | Nil =>
          mkWorld (tm w) (chans w) (AtStore None) (S (attempts w)) (events w)
      end
  | AtRetrySleep =>
      mkWorld (tm w) (chans w) AtGetNewToken (attempts w)
              (events w ++ [EvSleep (5 * Second)])
  | AtStore token =>
      mkWorld (set_currentToken token (tm w)) (chans w)
              (AtSignal token) (attempts w)
              (events w ++ [EvPublish (tokenReady (tm w)) token])
  | AtSignal token =>
      match signalReady (chans w) (tokenReady (tm w)) with
      | Some h => mkWorld (tm w) h (AtCallback token) (attempts w) (events w)
      | None => mkWorld (tm w) (chans w) Panicked (attempts w) (events w)
      end
  | AtCallback token =>
      match onNewToken (tm w) with
      | Some cb =>
          mkWorld (tm w) (chans w) (after_callback (cb (attempts w) token) token)
                  (attempts w) (events w ++ [EvCallback cb token])
      | None =>
          mkWorld (tm w) (chans w) (AtSchedule token) (attempts w) (events w)
      end
  | AtSchedule token =>
      mkWorld (tm w) (chans w) (after_schedule (tm w) token)
              (attempts w) (events w)
  | AtTimer d =>
      mkWorld (set_refreshTimer (Some d) (tm w)) (chans w) AtNewGate
              (attempts w) (events w ++ [EvTimer d])
  | AtNewGate =>
      let '(c, h) := make_chan (chans w) in
      mkWorld (set_tokenReady c (tm w)) h AtGetNewToken (attempts w) (events w)
  | Panicked | Crashed _ | Stuck => w
  end.

Fixpoint steps (n : nat) (w : World) : World :=
  match n with
  | O => w
  | S n => steps n (step w)
  end.

End Run.

(** [NewTokenManager(provider, options...)]: the struct literal, the options
    applied in order, and the loop started at its first statement. *)
Definition NewTokenManager (options : list TokenManagerOption) : World :=
  let m := mkTokenManager None None 0%nat (60 * Second) (59 * Minute) None in
  let m := fold_left (fun m o => apply_option o m) options m in
  mkWorld m [false] AtGetNewToken 0%nat [].

(** The world after [n] steps of the loop of a manager built with [options]. *)
Definition run (provider : TokenProvider) (options : list TokenManagerOption)
    (n : nat) : World :=
  steps provider n (NewTokenManager options).

(** ** Caller-facing operations *)

(** [GetFullToken]: the pointer read under the read lock. *)
Definition GetFullToken (w : World) : option TokenResponse := currentToken (tm w).

Definition GetToken (w : World) : string :=
  match currentToken (tm w) with
  | None => EmptyString
  | Some token => AccessToken token
  end.

Definition GetAuthorizationHeader (w : World) : string :=
  match GetFullToken w with
  | None => EmptyString
  | Some token => TokenType token +:+ " " +:+ AccessToken token
  end.

(** The part of [http.Request] the manager touches.  [Header] is the
    initialised map of [http.NewRequest], from canonical key to values. *)
Record Request := mkRequest {
  Method : string;
  URL    : string;
  Header : gmap string (list string)
}.

(** [Header.Set(key, value)] for a key already in canonical form, as
    "Authorization" is: the entry is replaced by the single value. *)
Definition Header_Set (key value : string) (h : gmap string (list string))
    : gmap string (list string) :=
  <[key := [value]]> h.

(** [Header.Get(key)]: the first value of the entry, or the empty string. *)
Definition Header_Get (key : string) (h : gmap string (list string)) : string :=
  match h !! key with
  | Some (v :: _) => v
  | _ => EmptyString
  end.

(** [ApplyToRequest] updates the request in place; the request after the
    call is returned. *)
Definition ApplyToRequest (w : World) (req : Request) : Request :=
  let authHeader := GetAuthorizationHeader w in
  if decide (authHeader = EmptyString) then req
  else mkRequest (Method req) (URL req) (Header_Set "Authorization" authHeader (Header req)).

(** [WaitForToken] evaluates the operand [tm.tokenReady] when it is called
    and then receives from that channel.  [gate] is the channel the call
    read; the result in world [w] is [Some tt] when the receive can proceed
    there and [None] while the caller is blocked. *)
Definition WaitForToken (gate : chan) (w : World) : option unit :=
  if recv_ready (chans w) gate then Some tt else None.

(** [EnsureValidToken]: [Some r] when the call returns the error [r] ([None]
    being Go's nil), [None] while it is blocked. *)
Definition EnsureValidToken (gate : chan) (w : World) : option (option error) :=
  match WaitForToken gate w with
  | Some _ => Some None
  | None => None
  end.

(** ** Generations and the state invariant *)

(** The program points at which the pointer of the iteration has been
    stored, and those at which its gate has been signalled as well (the
    loop ends only after both). *)
Definition stored (p : Pc) : bool :=
  match p with
  | AtSignal _ | AtCallback _ | AtSchedule _ | AtTimer _ | AtNewGate
  | Crashed _ | Stuck => true
  | _ => false
  end.

Definition signalled (p : Pc) : bool :=
  match p with
  | AtCallback _ | AtSchedule _ | AtTimer _ | AtNewGate
  | Crashed _ | Stuck => true
  | _ => false
  end.

(** Each gate stands for one generation.  A pointer belongs to the
    generation of [gate] when the loop stored it while [gate] was the
    manager's [tokenReady] channel. *)
Definition publishedIn (w : World) (gate : chan) (token : option TokenResponse)
    : Prop :=
  In (EvPublish gate token) (events w).

(** The invariant of the data model: the current gate is ready exactly when
    the current credential is present and belongs to the gate's
    generation. *)
Definition ManagerState_invariant (w : World) : Prop :=
  recv_ready (chans w) (tokenReady (tm w)) = true <->
  exists token, currentToken (tm w) = Some token /\
                publishedIn w (tokenReady (tm w)) (Some token).

(** The same without the presence of the credential: the current gate is
    ready exactly when [currentToken], nil or not, is the pointer stored in
    the gate's generation. *)
Definition gate_tracks_store (w : World) : Prop :=
  recv_ready (chans w) (tokenReady (tm w)) = true <->
  publishedIn w (tokenReady (tm w)) (currentToken (tm w)).

(** The world with another buffer. *)
Definition with_bufferTime (d : Duration) (w : World) : World :=
  mkWorld (set_bufferTime d (tm w)) (chans w) (pc w) (attempts w) (events w).

(** The program points at which line 111 reads the buffer. *)
Definition reads_bufferTime (w : World) : bool :=
  match pc w with
  | AtSchedule (Some _) => negb (0 <? refreshTime (tm w))
  | _ => false
  end.

(** The facts about [run] that every reachable world satisfies. *)
Record Inv (provider : TokenProvider) (w : World) : Prop := mkInv {
  inv_alive : pc w <> Panicked;
  inv_last : length (chans w) = S (tokenReady (tm w));
  inv_gate : chans w !! tokenReady (tm w) = Some (signalled (pc w));
  inv_older : forall c, (c < tokenReady (tm w))%nat -> chans w !! c = Some true;
  inv_delivered : (0 < tokenReady (tm w))%nat \/ stored (pc w) = true ->
                  exists a token, (a < attempts w)%nat /\
                                  delivered (provider a) = Some token;
  inv_present : (0 < tokenReady (tm w))%nat \/ stored (pc w) = true ->
                currentToken (tm w) <> None \/
                exists a, (a < attempts w)%nat /\ provider a = Nil;
  inv_acquired : forall token, currentToken (tm w) = Some token ->
                 exists a, (a < attempts w)%nat /\ provider a = Ok token;
  inv_store : forall token, pc w = AtStore token ->
              exists a, (a < attempts w)%nat /\
                        delivered (provider a) = Some token;
  inv_stored : stored (pc w) = true ->
               publishedIn w (tokenReady (tm w)) (currentToken (tm w));
  inv_history : forall g token, publishedIn w g token ->
                (g < tokenReady (tm w))%nat \/
                (g = tokenReady (tm w) /\ stored (pc w) = true)
}.

(** ** The lifecycle steps of the loop, each a run of statements of [run] *)

Section Lifecycle.

Variable provider : TokenProvider.

(** The steps of the state machine: a failed acquisition with its pause;
    an acquisition that returns with a nil error, with the store and the
    signal; the
    notification, the scheduled wait and the replacement of the gate. *)
Inductive lifecycle_step : World -> World -> Prop :=
| retry_on_failure w e :
    pc w = AtGetNewToken -> provider (attempts w) = Err e ->
    lifecycle_step w (steps provider 2 w)
| publish_and_signal w token :
    pc w = AtGetNewToken -> delivered (provider (attempts w)) = Some token ->
    lifecycle_step w (steps provider 3 w)
| gate_replacement w token :
    pc w = AtCallback token ->
    lifecycle_step w (steps provider 4 w).

(** The worlds the lifecycle steps reach from construction. *)
Inductive lifecycle_reachable (options : list TokenManagerOption) : World -> Prop :=
| construction : lifecycle_reachable options (NewTokenManager options)
| lifecycle_next w w' :
    lifecycle_reachable options w -> lifecycle_step w w' ->
    lifecycle_reachable options w'.

End Lifecycle.

(** ** Sample credentials and providers *)

Definition token_abc : TokenResponse := mkTokenResponse "abc" 3600 "Bearer" EmptyString.

(** A 200 response whose body has no [access_token] member unmarshals to
    this credential, without error. *)
Definition token_blank : TokenResponse := mkTokenResponse EmptyString 3600 "Bearer" EmptyString.

Definition token_60s : TokenResponse := mkTokenResponse "abc" 60 "Bearer" EmptyString.

(** A provider that returns a nil token with a nil error each time. *)
Definition always_nil : TokenProvider := fun _ => Nil.

(** A provider that delivers a credential once and a nil token with a nil
    error from then on. *)
Definition then_nil (token : TokenResponse) : TokenProvider :=
  fun n => match n with
           | O => Ok token
           | S _ => Nil
           end.

(** Callbacks that return, panic, or never return at each call. *)
Definition quiet : Callback := fun _ _ => Returns.
Definition faulty : Callback := fun _ _ => Panics.
Definition endless : Callback := fun _ _ => NeverReturns.

(** A provider that always succeeds with the same credential. *)
Definition always (token : TokenResponse) : TokenProvider := fun _ => Ok token.

(** A provider that fails [k] times and succeeds from then on. *)
Definition after_failures (k : nat) (token : TokenResponse) : TokenProvider :=
  fun n => if (n <? k)%nat then Err "unavailable" else Ok token.

(** A provider that succeeds once and fails from then on. *)
Definition once (token : TokenResponse) : TokenProvider :=
  fun n => match n with
           | O => Ok token
           | S _ => Err "unavailable"
           end.

(** ** Observations on a run *)

(** The publications, callback calls, logged errors, pauses and timers of an
    event log, each in the order in which they happened. *)
Definition published (es : list Event) : list (nat * option TokenResponse) :=
  omap (fun e => match e with EvPublish g token => Some (g, token) | _ => None end) es.

Definition notified (es : list Event) : list (Callback * option TokenResponse) :=
  omap (fun e => match e with EvCallback cb token => Some (cb, token) | _ => None end) es.

Definition logged_errors (es : list Event) : list error :=
  omap (fun e => match e with EvLogError err => Some err | _ => None end) es.

Definition sleeps (es : list Event) : list Duration :=
  omap (fun e => match e with EvSleep d => Some d | _ => None end) es.

Definition timers (es : list Event) : list Duration :=
  omap (fun e => match e with EvTimer d => Some d | _ => None end) es.

(** The pointer of the latest answer with a nil error among the first [n]
    answers of the provider: the credential of the latest success, nil when
    that answer had a nil token. *)
Fixpoint last_ok (provider : TokenProvider) (n : nat) : option TokenResponse :=
  match n with
  | O => None
  | S k => match provider k with
           | Ok token => Some token
           | Nil => None
           | Err _ => last_ok provider k
           end
  end.

(** The credential that has been stored and whose callback call, at lines
    99-101, is still to come. *)
Definition awaiting_callback (p : Pc) : list (option TokenResponse) :=
  match p with
  | AtSignal token | AtCallback token => [token]
  | _ => []
  end.

(** What is under way at a program point: an acquired credential not yet
    stored, a pause not yet taken, a fired timer whose gate is not yet
    replaced. *)
Definition acquired_pending (p : Pc) : nat :=
  match p with AtStore _ => 1 | _ => 0 end.
Definition sleep_pending (p : Pc) : nat :=
  match p with AtRetrySleep => 1 | _ => 0 end.
Definition gate_pending (p : Pc) : nat :=
  match p with AtNewGate => 1 | _ => 0 end.

(** The callback calls against the publications: with a callback [cb]
    configured, the calls made and the one still to come are the published
    credentials, in order; with none configured there are no calls. *)
Definition callbacks_follow (configured : option Callback) (w : World) : Prop :=
  match configured with
  | Some cb =>
      notified (events w) ++ map (pair cb) (awaiting_callback (pc w)) =
      map (fun gt => (cb, snd gt)) (published (events w))
  | None => notified (events w) = []
  end.

(** The attempts against the log: every attempt is a publication, a logged
    error or the credential about to be stored; every logged error has its
    pause, and every pause is five seconds long. *)
Definition attempts_accounted (w : World) : Prop :=
  attempts w = (length (published (events w)) + length (logged_errors (events w)) +
                acquired_pending (pc w))%nat /\
  (length (sleeps (events w)) + sleep_pending (pc w))%nat =
    length (logged_errors (events w)) /\
  Forall (fun d => d = 5 * Second) (sleeps (events w)).

(** The generations against the log: the publications were made under the
    gates 0, 1, 2, ... in this order, one each, up to the current gate; and
    the gate has been replaced once per timer. *)
Definition generations_accounted (w : World) : Prop :=
  map fst (published (events w)) =
    seq 0 (tokenReady (tm w) + (if stored (pc w) then 1 else 0)) /\
  length (timers (events w)) = (tokenReady (tm w) + gate_pending (pc w))%nat /\
  length (chans w) = S (tokenReady (tm w)).

(** Which field an option writes. *)
Definition sets_bufferTime (o : TokenManagerOption) : bool :=
  match o with WithBufferTime _ => true | _ => false end.
Definition sets_refreshTime (o : TokenManagerOption) : bool :=
  match o with WithRefreshTime _ => true | _ => false end.
Definition sets_onNewToken (o : TokenManagerOption) : bool :=
  match o with WithOnNewToken _ => true | _ => false end.

(** ** The client credentials provider (pkg/oauth/token.go) *)

Module ClientCredentials.

(** [ClientCredentialsProvider], without the HTTP client. *)
Record Provider := mkProvider {
  TokenURL     : string;
  ClientID     : string;
  ClientSecret : string;
  Scope        : string;
  ExtraParams  : gmap string string
}.

(** [url.Values.Set(key, value)]: the entry becomes the single value. *)
Definition Values_Set (key value : string) (v : gmap string (list string))
    : gmap string (list string) :=
  <[key := [value]]> v.

(** Lines 40-47 of [GetNewToken]: the standard parameters of the form. *)
Definition standardValues (p : Provider) : gmap string (list string) :=
  let data := Values_Set "grant_type" "client_credentials" ∅ in
  let data := Values_Set "client_id" (ClientID p) data in
  let data := Values_Set "client_secret" (ClientSecret p) data in
  if decide (Scope p = EmptyString) then data
  else Values_Set "scope" (Scope p) data.

(** Lines 40-52: the form after the loop over [p.ExtraParams].  Go ranges
    over a map in an unspecified order; [order] is the sequence of entries
    the range statement yields. *)
Definition formValues (p : Provider) (order : list (string * string))
    : gmap string (list string) :=
  fold_left (fun data kv => Values_Set (fst kv) (snd kv) data) order (standardValues p).

End ClientCredentials.

(** * Properties *)

(** ** Channels and the ready signal *)

Lemma recv_ready_true (h : Chans) (c : chan) :
  recv_ready h c = true <-> h !! c = Some true.
Proof.
  unfold recv_ready. destruct (h !! c) as [[]|]; split; congruence.
Qed.

Lemma chan_close_open (h : Chans) (c : chan) :
  h !! c = Some false -> chan_close h c = Some (<[c := true]> h).
Proof. intros E. unfold chan_close. now rewrite E. Qed.


Lemma signalReady_open (h : Chans) (c : chan) :
  h !! c = Some false -> signalReady h c = Some (<[c := true]> h).
Proof.
  intros E. unfold signalReady, recv_ready. rewrite E. now apply chan_close_open.
Qed.

Lemma signalReady_closed (h : Chans) (c : chan) :
  h !! c = Some true -> signalReady h c = Some h.
Proof. intros E. unfold signalReady, recv_ready. now rewrite E. Qed.

(** A signal on an allocated channel never panics and leaves it closed. *)
Lemma signalReady_total (h : Chans) (c : chan) :
  (c < length h)%nat ->
  exists h', signalReady h c = Some h' /\ h' !! c = Some true /\
             length h' = length h.
Proof.
  intros L. destruct (lookup_lt_is_Some_2 h c L) as [b E]. destruct b.
  - exists h. now rewrite signalReady_closed.
  - exists (<[c := true]> h). rewrite signalReady_open by assumption.
    rewrite list_lookup_insert_eq by assumption. now rewrite length_insert.
Qed.

(** ** Runs *)

Lemma steps_add (provider : TokenProvider) (n k : nat) (w : World) :
  steps provider (n + k) w = steps provider k (steps provider n w).
Proof.
  revert w. induction n as [|n IH]; intros w; simpl; [reflexivity | apply IH].
Qed.

Lemma steps_succ (provider : TokenProvider) (n : nat) (w : World) :
  steps provider (S n) w = step provider (steps provider n w).
Proof.
  replace (S n) with (n + 1)%nat by lia. now rewrite steps_add.
Qed.

Lemma run_add (provider : TokenProvider) options (n k : nat) :
  run provider options (n + k) = steps provider k (run provider options n).
Proof. apply steps_add. Qed.

(** Options only write the three configuration fields. *)
Lemma options_keep_state (options : list TokenManagerOption) (m : TokenManager) :
  let m' := fold_left (fun m o => apply_option o m) options m in
  currentToken m' = currentToken m /\ tokenReady m' = tokenReady m /\
  refreshTimer m' = refreshTimer m.
Proof.
  revert m. induction options as [|o options IH]; intros m; simpl; [tauto|].
  destruct (IH (apply_option o m)) as (A & B & C).
  rewrite A, B, C. now destruct o.
Qed.

(** ** The invariant of the loop *)

(** Membership in a log that a step extended by one event: the event is an
    older one, or it is the new one. *)
Ltac last_event I :=
  apply in_app_or in I as [I|[I|[]]].

Lemma Inv_init (provider : TokenProvider) (options : list TokenManagerOption) :
  Inv provider (NewTokenManager options).
Proof.
  unfold NewTokenManager.
  destruct (options_keep_state options
              (mkTokenManager None None 0%nat (60 * Second) (59 * Minute) None))
    as (A & B & C).
  simpl in A, B, C.
  constructor; unfold publishedIn; simpl; rewrite ?A, ?B; simpl;
    try congruence; try tauto; intros; try lia; try discriminate.
  all: destruct H; [lia | discriminate].
Qed.

(** Facts about the attempts made so far stay true when one more is made. *)
Ltac one_more H :=
  let a := fresh "a" in
  let t := fresh "t" in
  let L := fresh "L" in
  let E := fresh "E" in
  first
    [ destruct H as (a & t & L & E); exists a, t; split; [lia | exact E]
    | destruct H as (a & L & E); exists a; split; [lia | exact E]
    | destruct H as [H|(a & L & E)]; [left; exact H | right; exists a; split; [lia | exact E]] ].

Lemma Inv_step (provider : TokenProvider) (w : World) :
  Inv provider w -> Inv provider (step provider w).
Proof.
  intros [Alive Last Gate Older Deliv Pres Acq Store Stored Hist].
  unfold step. destruct (pc w) eqn:P; simpl in *.
  - (* GetNewToken *)
    destruct (provider (attempts w)) eqn:R;
      constructor; unfold publishedIn in *; simpl; rewrite ?P; simpl;
        try assumption; try congruence.
    all: try (intros H; specialize (Deliv H); one_more Deliv).
    all: try (intros H; specialize (Pres H); one_more Pres).
    all: try (intros t E; specialize (Acq t E); one_more Acq).
    all: try (intros t E; injection E as <-; exists (attempts w);
              split; [lia | now rewrite R]).
    intros g t I. last_event I; [|discriminate]. exact (Hist g t I).
  - (* the pause after a failure *)
    constructor; unfold publishedIn in *; simpl; try assumption; try congruence.
    intros g t I. last_event I; [|discriminate]. exact (Hist g t I).
  - (* the store *)
    destruct (Store token eq_refl) as (a & La & Ea).
    constructor; unfold publishedIn in *; simpl; try assumption; try congruence.
    + intros _. now exists a, token.
    + intros _. destruct token as [t|]; [left; congruence|right].
      exists a. split; [assumption|]. now destruct (provider a).
    + intros t E. subst token. exists a. split; [assumption|].
      destruct (provider a); simpl in Ea; congruence.
    + intros _. apply in_or_app. right. now left.
    + intros g t I. last_event I.
      * destruct (Hist g t I) as [|[_ ?]]; [now left|discriminate].
      * injection I as <- <-. now right.
  - (* the signal *)
    rewrite (signalReady_open _ _ Gate).
    assert (tokenReady (tm w) < length (chans w))%nat as L by lia.
    constructor; unfold publishedIn in *; simpl; try assumption; try congruence.
    + now rewrite length_insert.
    + now apply list_lookup_insert_eq.
    + intros c Lc. rewrite list_lookup_insert_ne by lia. now apply Older.
  - (* the callback *)
    destruct (onNewToken (tm w)) as [cb|].
    + assert (stored (after_callback (cb (attempts w) token) token) = true) as St
        by now destruct (cb (attempts w) token).
      assert (signalled (after_callback (cb (attempts w) token) token) = true) as Sg
        by now destruct (cb (attempts w) token).
      constructor; unfold publishedIn in *; simpl; rewrite ?St, ?Sg;
        try assumption; try congruence.
      * destruct (cb (attempts w) token); discriminate.
      * destruct (cb (attempts w) token); discriminate.
      * intros _. apply in_or_app. left. now apply Stored.
      * intros g t I. last_event I; [|discriminate].
        destruct (Hist g t I) as [|[-> _]]; [now left | now right].
    + constructor; unfold publishedIn in *; simpl; try assumption; try congruence.
  - (* the schedule *)
    assert (stored (after_schedule (tm w) token) = true) as St.
    { unfold after_schedule. destruct token; [reflexivity|]. now destruct (0 <? _). }
    assert (signalled (after_schedule (tm w) token) = true) as Sg.
    { unfold after_schedule. destruct token; [reflexivity|]. now destruct (0 <? _). }
    constructor; unfold publishedIn in *; simpl; rewrite ?St, ?Sg;
      try assumption; try congruence.
    + unfold after_schedule. destruct token; [discriminate|].
      destruct (0 <? _); discriminate.
    + unfold after_schedule. intros t. destruct token; [discriminate|].
      destruct (0 <? _); discriminate.
  - (* the timer *)
    constructor; unfold publishedIn in *; simpl; try assumption; try congruence.
    + intros _. apply in_or_app. left. now apply Stored.
    + intros g t I. last_event I; [|discriminate]. exact (Hist g t I).
  - (* the new gate *)
    pose proof (Stored eq_refl) as I0.
    constructor; unfold publishedIn in *; simpl; try assumption; try congruence.
    + rewrite length_app. simpl. lia.
    + rewrite Last. rewrite lookup_app_r by lia. rewrite Last.
      now rewrite Nat.sub_diag.
    + intros c Lc. rewrite Last in Lc.
      rewrite lookup_app_l by lia.
      destruct (decide (c = tokenReady (tm w))) as [->|Ne]; [assumption|].
      apply Older. lia.
    + intros _. apply Deliv. now right.
    + intros _. apply Pres. now right.
    + intros g t I. left. rewrite Last. destruct (Hist g t I) as [|[-> _]]; lia.
  - (* no step after the panic of close *)
    congruence.
  - (* nor after another crash *)
    constructor; rewrite ?P; simpl; try assumption; congruence.
  - (* nor inside a callback that never returns *)
    constructor; rewrite ?P; simpl; try assumption; congruence.
Qed.

Lemma Inv_steps (provider : TokenProvider) (n : nat) (w : World) :
  Inv provider w -> Inv provider (steps provider n w).
Proof.
  revert w. induction n as [|n IH]; intros w I; simpl; [assumption|].
  apply IH. now apply Inv_step.
Qed.

Lemma Inv_run (provider : TokenProvider) options (n : nat) :
  Inv provider (run provider options n).
Proof. apply Inv_steps, Inv_init. Qed.

(** ** The equations of [step], one per program point *)

Section StepEquations.

Variable provider : TokenProvider.

Lemma step_failed (w : World) (e : error) :
  pc w = AtGetNewToken -> provider (attempts w) = Err e ->
  step provider w =
  mkWorld (tm w) (chans w) AtRetrySleep (S (attempts w)) (events w ++ [EvLogError e]).
Proof. intros P R. unfold step. now rewrite P, R. Qed.

Lemma step_acquired (w : World) (token : option TokenResponse) :
  pc w = AtGetNewToken -> delivered (provider (attempts w)) = Some token ->
  step provider w =
  mkWorld (tm w) (chans w) (AtStore token) (S (attempts w)) (events w).
Proof.
  intros P R. unfold step. rewrite P.
  destruct (provider (attempts w)); simpl in R; congruence.
Qed.

Lemma step_retry (w : World) :
  pc w = AtRetrySleep ->
  step provider w =
  mkWorld (tm w) (chans w) AtGetNewToken (attempts w)
          (events w ++ [EvSleep (5 * Second)]).
Proof. intros P. unfold step. now rewrite P. Qed.

Lemma step_store (w : World) (token : option TokenResponse) :
  pc w = AtStore token ->
  step provider w =
  mkWorld (set_currentToken token (tm w)) (chans w) (AtSignal token)
          (attempts w) (events w ++ [EvPublish (tokenReady (tm w)) token]).
Proof. intros P. unfold step. now rewrite P. Qed.

Lemma step_signal (w : World) (token : option TokenResponse) :
  pc w = AtSignal token -> chans w !! tokenReady (tm w) = Some false ->
  step provider w =
  mkWorld (tm w) (<[tokenReady (tm w) := true]> (chans w)) (AtCallback token)
          (attempts w) (events w).
Proof.
  intros P G. unfold step. rewrite P. now rewrite (signalReady_open _ _ G).
Qed.

Lemma step_callback (w : World) (token : option TokenResponse) :
  pc w = AtCallback token ->
  step provider w =
  match onNewToken (tm w) with
  | Some cb =>
      mkWorld (tm w) (chans w) (after_callback (cb (attempts w) token) token)
              (attempts w) (events w ++ [EvCallback cb token])
  | None => mkWorld (tm w) (chans w) (AtSchedule token) (attempts w) (events w)
  end.
Proof. intros P. unfold step. now rewrite P. Qed.

Lemma step_schedule (w : World) (token : option TokenResponse) :
  pc w = AtSchedule token ->
  step provider w =
  mkWorld (tm w) (chans w) (after_schedule (tm w) token) (attempts w) (events w).
Proof. intros P. unfold step. now rewrite P. Qed.

Lemma step_timer (w : World) (d : Duration) :
  pc w = AtTimer d ->
  step provider w =
  mkWorld (set_refreshTimer (Some d) (tm w)) (chans w) AtNewGate (attempts w)
          (events w ++ [EvTimer d]).
Proof. intros P. unfold step. now rewrite P. Qed.

Lemma step_newgate (w : World) :
  pc w = AtNewGate ->
  step provider w =
  mkWorld (set_tokenReady (length (chans w)) (tm w)) (chans w ++ [false])
          AtGetNewToken (attempts w) (events w).
Proof. intros P. unfold step. now rewrite P. Qed.

(** There is no step out of a dead loop. *)
Lemma step_dead (w : World) :
  pc w = Panicked \/ (exists c, pc w = Crashed c) \/ pc w = Stuck ->
  step provider w = w.
Proof. intros [P|[[c P]|P]]; unfold step; now rewrite P. Qed.

Lemma steps_unfold (n : nat) (w : World) :
  steps provider (S n) w = steps provider n (step provider w).
Proof. reflexivity. Qed.

(** The three lifecycle steps in closed form. *)
Lemma steps_retry (w : World) (e : error) :
  pc w = AtGetNewToken -> provider (attempts w) = Err e ->
  steps provider 2 w =
  mkWorld (tm w) (chans w) AtGetNewToken (S (attempts w))
          ((events w ++ [EvLogError e]) ++ [EvSleep (5 * Second)]).
Proof.
  intros P R.
  rewrite steps_unfold, (step_failed w e P R).
  rewrite steps_unfold, step_retry by reflexivity. reflexivity.
Qed.

Lemma steps_publish (w : World) (token : option TokenResponse) :
  pc w = AtGetNewToken -> delivered (provider (attempts w)) = Some token ->
  chans w !! tokenReady (tm w) = Some false ->
  steps provider 3 w =
  mkWorld (set_currentToken token (tm w))
          (<[tokenReady (tm w) := true]> (chans w)) (AtCallback token)
          (S (attempts w)) (events w ++ [EvPublish (tokenReady (tm w)) token]).
Proof.
  intros P R G.
  rewrite steps_unfold, (step_acquired w token P R).
  rewrite steps_unfold, (step_store _ token) by reflexivity.
  rewrite steps_unfold, (step_signal _ token) by (try reflexivity; exact G).
  reflexivity.
Qed.


(** Where a program point is entered from. *)
Lemma step_into_signal (w : World) (token : option TokenResponse) :
  pc (step provider w) = AtSignal token -> pc w = AtStore token.
Proof.
  unfold step. destruct (pc w) eqn:P; simpl; try congruence.
  - destruct (provider (attempts w)); simpl; congruence.
  - destruct (signalReady (chans w) (tokenReady (tm w))); simpl; congruence.
  - destruct (onNewToken (tm w)) as [cb|]; simpl; [|congruence].
    destruct (cb (attempts w) token0); simpl; congruence.
  - unfold after_schedule. destruct token0; [congruence|].
    destruct (0 <? _); congruence.
Qed.

Lemma step_into_store (w : World) (token : option TokenResponse) :
  pc (step provider w) = AtStore token -> pc w = AtGetNewToken.
Proof.
  unfold step. destruct (pc w) eqn:P; simpl; try congruence.
  - destruct (signalReady (chans w) (tokenReady (tm w))); simpl; congruence.
  - destruct (onNewToken (tm w)) as [cb|]; simpl; [|congruence].
    destruct (cb (attempts w) token0); simpl; congruence.
  - unfold after_schedule. destruct token0; [congruence|].
    destruct (0 <? _); congruence.
Qed.

Lemma step_into_acquire (w : World) :
  pc (step provider w) = AtGetNewToken ->
  pc w = AtRetrySleep \/ pc w = AtNewGate.
Proof.
  unfold step. destruct (pc w) eqn:P; simpl; try congruence; try tauto.
  - destruct (provider (attempts w)); simpl; congruence.
  - destruct (signalReady (chans w) (tokenReady (tm w))); simpl; congruence.
  - destruct (onNewToken (tm w)) as [cb|]; simpl; [|congruence].
    destruct (cb (attempts w) token); simpl; congruence.
  - unfold after_schedule. destruct token; [congruence|].
    destruct (0 <? _); congruence.
Qed.

Lemma step_into_pause_or_gate (w : World) :
  pc (step provider w) = AtRetrySleep \/ pc (step provider w) = AtNewGate ->
  pc w = AtGetNewToken \/ exists d, pc w = AtTimer d.
Proof.
  unfold step. destruct (pc w) eqn:P; simpl; try (intros [|]; congruence);
    try tauto.
  - destruct (signalReady (chans w) (tokenReady (tm w))); simpl; intros [|]; congruence.
  - destruct (onNewToken (tm w)) as [cb|]; simpl; [|intros [|]; congruence].
    destruct (cb (attempts w) token); simpl; intros [|]; congruence.
  - unfold after_schedule. destruct token; [intros [|]; congruence|].
    destruct (0 <? _); intros [|]; congruence.
  - eauto.
Qed.

(** A step closes no gate but the current one, and only at the signal. *)
Lemma step_closes (w : World) (g : chan) :
  Inv provider w ->
  recv_ready (chans w) g = false -> recv_ready (chans (step provider w)) g = true ->
  g = tokenReady (tm w) /\ tm (step provider w) = tm w.
Proof.
  intros I Open Closed. unfold step in *.
  destruct (pc w) eqn:P; simpl in *; try congruence.
  - destruct (provider (attempts w)); simpl in *; congruence.
  - pose proof (inv_gate _ _ I) as G. rewrite P in G. simpl in G.
    rewrite (signalReady_open _ _ G) in *. simpl in *.
    split; [|reflexivity].
    destruct (decide (g = tokenReady (tm w))) as [|Ne]; [assumption|].
    unfold recv_ready in *. rewrite list_lookup_insert_ne in Closed by congruence.
    congruence.
  - destruct (onNewToken (tm w)); simpl in *; congruence.
  - unfold recv_ready in *.
    destruct (decide (g < length (chans w))%nat) as [L|L].
    + rewrite lookup_app_l in Closed by assumption. congruence.
    + rewrite lookup_app_r in Closed by lia.
      destruct (g - length (chans w))%nat; simpl in Closed; congruence.
Qed.

(** A closed channel stays closed. *)
Lemma step_keeps_closed (w : World) (g : chan) :
  recv_ready (chans w) g = true -> recv_ready (chans (step provider w)) g = true.
Proof.
  intros C. unfold step. destruct (pc w); simpl; try assumption.
  - now destruct (provider (attempts w)).
  - unfold signalReady, chan_close.
    destruct (recv_ready (chans w) (tokenReady (tm w))) eqn:R; [assumption|].
    destruct (chans w !! tokenReady (tm w)) as [[]|] eqn:G; simpl; try assumption.
    apply recv_ready_true in C. apply recv_ready_true.
    destruct (decide (g = tokenReady (tm w))) as [->|Ne]; [congruence|].
    now rewrite list_lookup_insert_ne by congruence.
  - now destruct (onNewToken (tm w)).
  - apply recv_ready_true in C. apply recv_ready_true.
    rewrite lookup_app_l; [assumption|]. now apply lookup_lt_Some in C.
Qed.

Lemma steps_keep_closed (n : nat) (w : World) (g : chan) :
  recv_ready (chans w) g = true -> recv_ready (chans (steps provider n w)) g = true.
Proof.
  revert w. induction n as [|n IH]; intros w C; simpl; [assumption|].
  now apply IH, step_keeps_closed.
Qed.

Lemma signalled_stored (p : Pc) : signalled p = true -> stored p = true.
Proof. now destruct p. Qed.

(** A channel that is ready is the gate of a generation whose store has
    been made. *)
Lemma Inv_ready (w : World) (g : chan) :
  Inv provider w -> recv_ready (chans w) g = true ->
  (0 < tokenReady (tm w))%nat \/ stored (pc w) = true.
Proof.
  intros I C. apply recv_ready_true in C.
  pose proof (lookup_lt_Some _ _ _ C) as L. rewrite (inv_last _ _ I) in L.
  destruct (decide (g = tokenReady (tm w))) as [->|Ne]; [right | left; lia].
  rewrite (inv_gate _ _ I) in C. apply signalled_stored. congruence.
Qed.

(** No gate is ready before an acquisition has returned with a nil error. *)
Lemma Inv_ready_delivered (w : World) (g : chan) :
  Inv provider w -> recv_ready (chans w) g = true ->
  exists a token, (a < attempts w)%nat /\ delivered (provider a) = Some token.
Proof. intros I C. apply (inv_delivered _ _ I). now apply (Inv_ready w g). Qed.

(** With a gate ready the credential is present, unless the provider has
    returned a nil token with a nil error. *)
Lemma Inv_ready_present (w : World) (g : chan) :
  Inv provider w -> recv_ready (chans w) g = true ->
  (forall a, provider a <> Nil) -> currentToken (tm w) <> None.
Proof.
  intros I C NoNil.
  destruct (inv_present _ _ I (Inv_ready w g I C)) as [N|(a & _ & E)];
    [assumption | now destruct (NoNil a)].
Qed.

(** Away from the window between the store and the signal, the gate is
    ready exactly when the current pointer is the one stored in its
    generation. *)
Lemma Inv_gate_tracks_store (w : World) :
  Inv provider w -> (forall token, pc w <> AtSignal token) ->
  gate_tracks_store w.
Proof.
  intros I NS. unfold gate_tracks_store. rewrite recv_ready_true.
  rewrite (inv_gate _ _ I). split.
  - intros E. apply (inv_stored _ _ I). apply signalled_stored. congruence.
  - intros P. destruct (inv_history _ _ I _ _ P) as [L|[_ S]]; [lia|].
    destruct (pc w) eqn:Q; simpl in *; congruence.
Qed.

(** With a provider that never returns a nil token with a nil error, that
    is the invariant of the data model. *)
Lemma Inv_ManagerState (w : World) :
  Inv provider w -> (forall token, pc w <> AtSignal token) ->
  (forall a, provider a <> Nil) ->
  ManagerState_invariant w.
Proof.
  intros I NS NoNil. destruct (Inv_gate_tracks_store w I NS) as [T1 T2].
  unfold ManagerState_invariant. split.
  - intros C. pose proof (Inv_ready_present w _ I C NoNil) as N.
    destruct (currentToken (tm w)) as [token|] eqn:E; [|congruence].
    exists token. split; [reflexivity|]. exact (T1 C).
  - intros (token & E & P). apply T2. now rewrite E.
Qed.

Lemma lifecycle_step_Inv (w w' : World) :
  lifecycle_step provider w w' -> Inv provider w ->
  Inv provider w' /\ forall token, pc w' <> AtSignal token.
Proof.
  intros S I. split; [destruct S; now apply Inv_steps|].
  pose proof (inv_gate _ _ I) as G.
  destruct S as [w e P R|w t P R|w t P]; rewrite P in G; simpl in G.
  - rewrite (steps_retry w e P R). simpl. congruence.
  - rewrite (steps_publish w t P R G). simpl. congruence.
  - intros token Q. rewrite !steps_succ in Q. simpl in Q.
    apply step_into_signal, step_into_store, step_into_acquire in Q.
    apply step_into_pause_or_gate in Q as [Q|[d Q]]; congruence.
Qed.

Lemma lifecycle_reachable_Inv options (w : World) :
  lifecycle_reachable provider options w ->
  Inv provider w /\ forall token, pc w <> AtSignal token.
Proof.
  induction 1 as [|w w' _ [I _] S].
  - split; [apply Inv_init|]. simpl. congruence.
  - now apply (lifecycle_step_Inv w w').
Qed.

End StepEquations.

(** ** The invariant of the manager state *)

(** C3 fails as stated: when GetNewToken returns a nil token with a nil
    error, line 80 lets it through, line 88 stores the nil pointer and line
    95 closes the gate, so the publish step ends with the gate ready and no
    credential present. *)
Lemma ManagerState_invariant_fails_on_nil_token :
  let w := steps always_nil 3 (NewTokenManager []) in
  lifecycle_reachable always_nil [] w /\
  recv_ready (chans w) (tokenReady (tm w)) = true /\
  currentToken (tm w) = None /\
  ~ ManagerState_invariant w.
Proof.
  split.
  { apply (lifecycle_next _ _ (NewTokenManager [])); [apply construction|].
    apply (publish_and_signal _ _ None); reflexivity. }
  split; [reflexivity|]. split; [reflexivity|].
  intros [H _]. destruct (H eq_refl) as (token & E & _). discriminate E.
Qed.

(** C3, amended: in every state the lifecycle steps reach from construction
    (retry on failure, publish and signal, gate replacement after the
    scheduled wait), the current gate is ready if and only if currentToken
    is the pointer stored in that gate's generation; and when the provider
    never returns a nil token with a nil error, the gate is ready if and
    only if the current credential is present and was published in that
    gate's generation. *)
Theorem ManagerState_invariant_holds (provider : TokenProvider)
    (options : list TokenManagerOption) (w : World) :
  lifecycle_reachable provider options w ->
  gate_tracks_store w /\
  ((forall a, provider a <> Nil) -> ManagerState_invariant w).
Proof.
  intros R. destruct (lifecycle_reachable_Inv provider options w R) as [I NS].
  split; [now apply (Inv_gate_tracks_store provider)|].
  intros NoNil. now apply (Inv_ManagerState provider).
Qed.

(** The same in every world of a run whose program point is not inside the
    publish step. *)
Corollary ManagerState_invariant_run (provider : TokenProvider)
    (options : list TokenManagerOption) (n : nat) :
  (forall token, pc (run provider options n) <> AtSignal token) ->
  gate_tracks_store (run provider options n).
Proof. apply (Inv_gate_tracks_store provider), Inv_run. Qed.

Lemma ManagerState_invariant_holds_witness :
  lifecycle_reachable (always token_abc) []
    (steps (always token_abc) 3 (NewTokenManager [])) /\
  gate_tracks_store (steps (always token_abc) 3 (NewTokenManager [])) /\
  ManagerState_invariant (steps (always token_abc) 3 (NewTokenManager [])).
Proof.
  assert (lifecycle_reachable (always token_abc) []
            (steps (always token_abc) 3 (NewTokenManager []))) as R.
  { apply (lifecycle_next _ _ (NewTokenManager [])); [apply construction|].
    apply (publish_and_signal _ _ (Some token_abc)); reflexivity. }
  split; [exact R|].
  destruct (ManagerState_invariant_holds (always token_abc) [] _ R) as [T M].
  split; [exact T|]. apply M. discriminate.
Defined.

(** The lifecycle steps are the granularity at which the invariant is
    stated: inside the publish step, after the store at line 88 and before
    the close at line 95, the credential of the generation is present while
    its gate is not ready yet. *)
Remark invariant_suspended_inside_publish :
  let w := run (always token_abc) [] 2 in
  pc w = AtSignal (Some token_abc) /\ ~ ManagerState_invariant w.
Proof.
  split; [reflexivity|]. intros [_ H].
  assert (recv_ready [false] 0%nat = true) as C; [|discriminate C].
  apply H. exists token_abc. split; [reflexivity|]. now left.
Qed.

(** ** Waiting for the gate *)

Section Waiting.

Variable provider : TokenProvider.





End Waiting.




(** C2 fails as stated: the token GetToken returns to a released waiter is
    the access token of the published credential, and that is empty when the
    provider delivered a credential with an empty access token; and when
    the provider returned a nil token with a nil error, the released waiter
    finds no credential at all. *)
Lemma GetToken_blank_after_release :
  (let w := run (always token_blank) [] 3 in
   WaitForToken (tokenReady (tm (NewTokenManager []))) w = Some tt /\
   currentToken (tm w) = Some token_blank /\
   GetToken w = EmptyString) /\
  (let w := run always_nil [] 3 in
   WaitForToken (tokenReady (tm (NewTokenManager []))) w = Some tt /\
   GetFullToken w = None /\
   GetToken w = EmptyString).
Proof. repeat split. Qed.

(** C2, amended: when a call of WaitForToken can return, GetNewToken has
    returned with a nil error and the current pointer is one it returned so
    (no release before a store); in the first world in which the call can
    return, the current pointer is the one stored in the generation of the
    gate the call waited for; and when the provider never returns a nil
    token with a nil error, the current credential is present and GetToken
    returns its access token, empty or not. *)
Theorem released_waiter_sees_credential (provider : TokenProvider)
    (options : list TokenManagerOption) (i k : nat) :
  let gate := tokenReady (tm (run provider options i)) in
  let w := run provider options k in
  (i <= k)%nat ->
  WaitForToken gate w = Some tt ->
  (exists a, (a < attempts w)%nat /\
             delivered (provider a) = Some (GetFullToken w)) /\
  ((forall j, (i <= j < k)%nat ->
      WaitForToken gate (run provider options j) = None) ->
   publishedIn w gate (GetFullToken w)) /\
  ((forall a, provider a <> Nil) ->
   exists token, GetFullToken w = Some token /\ GetToken w = AccessToken token).
Proof.
  intros gate w L R. pose proof (Inv_run provider options k) as I. fold w in I.
  unfold WaitForToken in R. unfold GetFullToken.
  destruct (recv_ready (chans w) gate) eqn:C; [clear R|discriminate].
  split; [|split].
  - destruct (currentToken (tm w)) as [token|] eqn:T.
    + destruct (inv_acquired _ _ I token T) as (a & La & Ea).
      exists a. split; [assumption|]. now rewrite Ea.
    + destruct (inv_present _ _ I (Inv_ready provider w gate I C)) as [N|(a & La & Ea)];
        [congruence|].
      exists a. split; [assumption|]. now rewrite Ea.
  - intros B.
    assert (tokenReady (tm w) = gate) as G.
    { destruct (decide (k = i)) as [->|Ne]; [reflexivity|].
      destruct k as [|k']; [lia|].
      assert (recv_ready (chans (run provider options k')) gate = false) as O.
      { specialize (B k'). unfold WaitForToken in B.
        destruct (recv_ready (chans (run provider options k')) gate);
          [discriminate B; lia | reflexivity]. }
      unfold w, run in *. rewrite steps_succ in *.
      destruct (step_closes provider _ gate
                  (Inv_steps provider k' _ (Inv_init provider options)) O C)
        as [-> ->]. reflexivity. }
    rewrite <- G. apply (inv_stored _ _ I). apply signalled_stored.
    apply recv_ready_true in C. rewrite <- G in C. rewrite (inv_gate _ _ I) in C.
    congruence.
  - intros NoNil. pose proof (Inv_ready_present provider w gate I C NoNil) as N.
    unfold GetToken. destruct (currentToken (tm w)) as [token|]; [|congruence].
    now exists token.
Qed.

Lemma released_waiter_sees_credential_witness :
  (0 <= 5)%nat /\
  WaitForToken (tokenReady (tm (run (after_failures 1 token_abc) [] 0)))
               (run (after_failures 1 token_abc) [] 5) = Some tt /\
  (exists a, (a < attempts (run (after_failures 1 token_abc) [] 5))%nat /\
             delivered (after_failures 1 token_abc a) =
             Some (GetFullToken (run (after_failures 1 token_abc) [] 5))) /\
  publishedIn (run (after_failures 1 token_abc) [] 5)
              (tokenReady (tm (run (after_failures 1 token_abc) [] 0)))
              (GetFullToken (run (after_failures 1 token_abc) [] 5)) /\
  exists token, GetFullToken (run (after_failures 1 token_abc) [] 5) = Some token /\
                GetToken (run (after_failures 1 token_abc) [] 5) = AccessToken token.
Proof.
  split; [apply Nat.le_0_l|]. split; [reflexivity|].
  destruct (released_waiter_sees_credential (after_failures 1 token_abc) [] 0 5
              (Nat.le_0_l 5) eq_refl) as (A & P & N).
  split; [exact A|]. split.
  - apply P. intros j [_ Lj].
    do 5 (destruct j as [|j]; [reflexivity|]). lia.
  - apply N. intros a. unfold after_failures. destruct (a <? 1)%nat; discriminate.
Defined.

(** ** The schedule *)

Lemma wrap64_small (z : Z) : - 2 ^ 63 <= z < 2 ^ 63 -> wrap64 z = z.
Proof. intros R. unfold wrap64. rewrite Z.mod_small; lia. Qed.

Lemma wrap64_range (z : Z) : - 2 ^ 63 <= wrap64 z < 2 ^ 63.
Proof.
  unfold wrap64. pose proof (Z.mod_pos_bound (z + 2 ^ 63) (2 ^ 64)). lia.
Qed.


(** Without it, and away from overflow, the schedule is the reported expiry
    minus the buffer when that is not negative, and five seconds when it
    is. *)
Lemma run_refreshTime_expiry (m : TokenManager) (token : TokenResponse) :
  refreshTime m <= 0 ->
  - 2 ^ 63 <= ExpiresIn token * Second < 2 ^ 63 ->
  - 2 ^ 63 <= ExpiresIn token * Second - bufferTime m < 2 ^ 63 ->
  run_refreshTime m token =
  if ExpiresIn token * Second - bufferTime m <? 0 then 5 * Second
  else ExpiresIn token * Second - bufferTime m.
Proof.
  intros R E D. unfold run_refreshTime.
  destruct (0 <? refreshTime m) eqn:P; [apply Z.ltb_lt in P; lia|].
  now rewrite (wrap64_small _ E), (wrap64_small _ D).
Qed.

(** The schedule is never negative; the test at line 112 lets zero through. *)
Lemma run_refreshTime_nonneg (m : TokenManager) (token : TokenResponse) :
  0 <= run_refreshTime m token.
Proof.
  unfold run_refreshTime.
  destruct (0 <? refreshTime m) eqn:P; [apply Z.ltb_lt in P; lia|].
  destruct (_ <? 0) eqn:N; [unfold Second; lia | apply Z.ltb_ge in N; lia].
Qed.

(** C4: with no fixed interval, the default buffer of 60 seconds and a
    credential that reports 60 seconds, expiry minus buffer is exactly zero
    and the loop arms its timer with a delay of zero, not with a strictly
    positive one. *)
Theorem schedule_zero_when_expiry_equals_buffer :
  let w := run (always token_60s) [WithRefreshTime 0] 5 in
  refreshTime (tm w) = 0 /\ bufferTime (tm w) = 60 * Second /\
  ExpiresIn token_60s * Second - bufferTime (tm w) = 0 /\
  run_refreshTime (tm w) token_60s = 0 /\
  pc w = AtTimer 0.
Proof. repeat split. Qed.

Section Schedule.

Variable provider : TokenProvider.

(** The loop never writes the configuration. *)
Lemma step_keeps_configuration (w : World) :
  bufferTime (tm (step provider w)) = bufferTime (tm w) /\
  refreshTime (tm (step provider w)) = refreshTime (tm w) /\
  onNewToken (tm (step provider w)) = onNewToken (tm w).
Proof.
  unfold step. destruct (pc w); simpl; try tauto.
  - now destruct (provider (attempts w)).
  - now destruct (signalReady (chans w) (tokenReady (tm w))).
  - destruct (onNewToken (tm w)) eqn:O; simpl; rewrite ?O; now repeat split.
Qed.




End Schedule.

Lemma steps_keep_configuration (provider : TokenProvider) (n : nat) : forall w : World,
  bufferTime (tm (steps provider n w)) = bufferTime (tm w) /\
  refreshTime (tm (steps provider n w)) = refreshTime (tm w) /\
  onNewToken (tm (steps provider n w)) = onNewToken (tm w).
Proof.
  induction n as [|n IH]; intros w; simpl; [now split|].
  destruct (IH (step provider w)) as (B & R & C).
  destruct (step_keeps_configuration provider w) as (B' & R' & C').
  rewrite B, R, C. now split.
Qed.



(** The first generation of that run: the publish and the timer of 59
    minutes for a credential that reports 60 seconds. *)
Example fixed_interval_first_generation :
  events (run (always token_60s) [WithRefreshTime (59 * Minute)] 6) =
  [EvPublish 0%nat (Some token_60s); EvTimer (59 * Minute)].
Proof. reflexivity. Qed.

(** ** A failed acquisition *)

(** C6: a failed acquisition changes neither the manager struct (credential,
    gate, configuration) nor any channel, so every caller-facing operation
    answers as before; the loop logs the error, sleeps five seconds and is
    back at the call of GetNewToken for the next attempt. *)
Theorem failed_acquisition_frame (provider : TokenProvider) (w : World) (e : error) :
  pc w = AtGetNewToken -> provider (attempts w) = Err e ->
  let w1 := step provider w in
  let w2 := step provider w1 in
  (tm w1 = tm w /\ chans w1 = chans w /\ pc w1 = AtRetrySleep) /\
  (tm w2 = tm w /\ chans w2 = chans w /\ pc w2 = AtGetNewToken /\
   attempts w2 = S (attempts w)) /\
  events w2 = events w ++ [EvLogError e; EvSleep (5 * Second)] /\
  (GetToken w1 = GetToken w /\ GetToken w2 = GetToken w) /\
  GetFullToken w2 = GetFullToken w /\
  GetAuthorizationHeader w2 = GetAuthorizationHeader w /\
  (forall req, ApplyToRequest w2 req = ApplyToRequest w req) /\
  (forall gate, WaitForToken gate w2 = WaitForToken gate w /\
                EnsureValidToken gate w2 = EnsureValidToken gate w).
Proof.
  intros P R w1 w2. unfold w2, w1.
  rewrite (step_failed provider w e P R).
  rewrite (step_retry provider
             (mkWorld (tm w) (chans w) AtRetrySleep (S (attempts w))
                      (events w ++ [EvLogError e])) eq_refl). simpl.
  repeat split. now rewrite <- app_assoc.
Qed.

Lemma failed_acquisition_frame_witness :
  pc (run (once token_abc) [] 7) = AtGetNewToken /\
  once token_abc (attempts (run (once token_abc) [] 7)) = Err "unavailable" /\
  GetToken (run (once token_abc) [] 9) = "abc" /\
  pc (run (once token_abc) [] 9) = AtGetNewToken.
Proof.
  split; [reflexivity|]. split; [reflexivity|].
  destruct (failed_acquisition_frame (once token_abc) (run (once token_abc) [] 7)
              "unavailable" eq_refl eq_refl) as (_ & (_ & _ & P & _) & _ & (_ & G) & _).
  split; [exact G | exact P].
Defined.

(** ** The ready signal *)

(** C7: on a gate that has been made, the select of lines 92-96 does not
    panic, and running it a second time returns the channels exactly as the
    first run left them, with the gate ready. *)
Theorem signalReady_idempotent (h : Chans) (c : chan) :
  (c < length h)%nat ->
  exists h1, signalReady h c = Some h1 /\ signalReady h1 c = Some h1 /\
             recv_ready h1 c = true.
Proof.
  intros L. destruct (signalReady_total h c L) as (h1 & S1 & C1 & _).
  exists h1. split; [assumption|]. split; [now apply signalReady_closed|].
  now apply recv_ready_true.
Qed.

Lemma signalReady_idempotent_witness :
  (0 < length [false])%nat /\
  exists h1, signalReady [false] 0%nat = Some h1 /\ signalReady h1 0%nat = Some h1 /\
             recv_ready h1 0%nat = true.
Proof.
  split; [apply Nat.lt_0_succ|].
  exact (signalReady_idempotent [false] 0%nat (Nat.lt_0_succ 0)).
Defined.

(** In every world of a run the current gate has been made, so the signal
    on it is idempotent and the loop never panics at line 95. *)
Lemma signalReady_current_gate (provider : TokenProvider)
    (options : list TokenManagerOption) (n : nat) :
  let w := run provider options n in
  pc w <> Panicked /\
  exists h1, signalReady (chans w) (tokenReady (tm w)) = Some h1 /\
             signalReady h1 (tokenReady (tm w)) = Some h1.
Proof.
  intros w. pose proof (Inv_run provider options n) as I. fold w in I.
  split; [apply (inv_alive _ _ I)|].
  destruct (signalReady_total (chans w) (tokenReady (tm w))) as (h1 & S1 & C1 & _).
  - rewrite (inv_last _ _ I). lia.
  - exists h1. split; [assumption | now apply signalReady_closed].
Qed.

(** ** The Authorization header *)

Lemma GetAuthorizationHeader_value (w : World) (token : TokenResponse) :
  currentToken (tm w) = Some token ->
  GetAuthorizationHeader w = TokenType token +:+ " " +:+ AccessToken token /\
  GetAuthorizationHeader w <> EmptyString.
Proof.
  intros T. unfold GetAuthorizationHeader, GetFullToken. rewrite T.
  split; [reflexivity|]. now destruct (TokenType token).
Qed.

(** [ApplyToRequest] writes the Authorization entry and nothing else. *)
Lemma ApplyToRequest_other (w : World) (req : Request) (key : string) :
  key <> "Authorization" ->
  Header (ApplyToRequest w req) !! key = Header req !! key /\
  Method (ApplyToRequest w req) = Method req /\
  URL (ApplyToRequest w req) = URL req.
Proof.
  intros Ne. unfold ApplyToRequest.
  destruct (decide (GetAuthorizationHeader w = EmptyString)); simpl; [tauto|].
  unfold Header_Set. now rewrite lookup_insert_ne by congruence.
Qed.

(** C8: with the credential (abc, Bearer) published, ApplyToRequest sets the
    Authorization entry of any request to the single value "Bearer abc";
    with no credential published it returns the request unchanged, and
    GetAuthorizationHeader is the empty string. *)
Theorem ApplyToRequest_sets_header (w : World) (req : Request) :
  (forall token, currentToken (tm w) = Some token ->
     AccessToken token = "abc" -> TokenType token = "Bearer" ->
     GetAuthorizationHeader w = "Bearer abc" /\
     Header (ApplyToRequest w req) !! "Authorization" = Some ["Bearer abc"] /\
     Header_Get "Authorization" (Header (ApplyToRequest w req)) = "Bearer abc") /\
  (currentToken (tm w) = None ->
     GetAuthorizationHeader w = EmptyString /\ ApplyToRequest w req = req).
Proof.
  split.
  - intros token T A K.
    assert (GetAuthorizationHeader w = "Bearer abc") as G.
    { rewrite (proj1 (GetAuthorizationHeader_value w token T)). now rewrite A, K. }
    split; [assumption|].
    unfold ApplyToRequest, Header_Get. rewrite G. simpl. unfold Header_Set.
    now rewrite lookup_insert_eq.
  - intros T. unfold ApplyToRequest, GetAuthorizationHeader, GetFullToken.
    now rewrite T.
Qed.

Lemma ApplyToRequest_sets_header_witness :
  Header (ApplyToRequest (run (always token_abc) [] 3)
            (mkRequest "GET" "https://httpbin.org/get" {["Accept" := ["*/*"]]}))
    !! "Authorization" = Some ["Bearer abc"] /\
  ApplyToRequest (NewTokenManager [])
    (mkRequest "GET" "https://httpbin.org/get" {["Accept" := ["*/*"]]}) =
  mkRequest "GET" "https://httpbin.org/get" {["Accept" := ["*/*"]]}.
Proof.
  split.
  - exact (proj1 (proj2 (proj1 (ApplyToRequest_sets_header
             (run (always token_abc) [] 3)
             (mkRequest "GET" "https://httpbin.org/get" {["Accept" := ["*/*"]]}))
             token_abc eq_refl eq_refl eq_refl))).
  - exact (proj2 (proj2 (ApplyToRequest_sets_header (NewTokenManager [])
             (mkRequest "GET" "https://httpbin.org/get" {["Accept" := ["*/*"]]}))
             eq_refl)).
Defined.

(** ** Construction *)

Lemma NewTokenManager_last_buffer (options : list TokenManagerOption) (d : Duration) :
  tm (NewTokenManager (options ++ [WithBufferTime d])) =
  set_bufferTime d (tm (NewTokenManager options)).
Proof. unfold NewTokenManager. simpl. now rewrite fold_left_app. Qed.

(** C9 fails as stated: a negative buffer passed through WithBufferTime is
    accepted by NewTokenManager, which stores it and starts the loop; its
    only consequence comes in the loop, whose schedule for a credential of
    3600 seconds is then 3601 seconds, after the expiry. *)
Lemma NewTokenManager_accepts_negative_buffer :
  let w := NewTokenManager [WithRefreshTime 0; WithBufferTime (- Second)] in
  bufferTime (tm w) = - Second /\ pc w = AtGetNewToken /\
  pc (steps (always token_abc) 5 w) = AtTimer (3601 * Second).
Proof. repeat split. Qed.

(** A step that is not the schedule computation of line 111 does not read
    the buffer. *)
Lemma step_with_bufferTime (provider : TokenProvider) (v : World) (d : Duration) :
  reads_bufferTime v = false ->
  step provider (with_bufferTime d v) = with_bufferTime d (step provider v).
Proof.
  unfold reads_bufferTime, with_bufferTime, step.
  destruct v as [m h p a ev]. simpl.
  destruct p as [| |t|t|t|t|x| | |c|]; simpl; intros Rd; try reflexivity.
  - now destruct (provider a).
  - now destruct (signalReady h (tokenReady m)).
  - now destruct (onNewToken m).
  - f_equal. unfold after_schedule, run_refreshTime. simpl.
    destruct t as [t|]; [|reflexivity].
    destruct (0 <? refreshTime m); [reflexivity|discriminate].
Qed.

Lemma run_with_bufferTime (provider : TokenProvider)
    (options : list TokenManagerOption) (d d' : Duration) (n : nat) :
  0 < refreshTime (tm (NewTokenManager (options ++ [WithBufferTime d]))) ->
  run provider (options ++ [WithBufferTime d']) n =
  with_bufferTime d' (run provider (options ++ [WithBufferTime d]) n).
Proof.
  intros Pos. induction n as [|n IH].
  - unfold run, with_bufferTime. simpl. unfold NewTokenManager.
    rewrite !fold_left_app. reflexivity.
  - unfold run in *. rewrite !steps_succ, IH. apply step_with_bufferTime.
    unfold reads_bufferTime.
    destruct (pc (steps provider n (NewTokenManager (options ++ [WithBufferTime d]))))
      as [| |t|t|t|[t|]|x| | |c|]; try reflexivity.
    destruct (steps_keep_configuration provider n
                (NewTokenManager (options ++ [WithBufferTime d]))) as (_ & -> & _).
    apply Z.ltb_lt in Pos. now rewrite Pos.
Qed.

(** C9, amended: NewTokenManager validates nothing and reports no error.
    For every list of options and every duration, negative ones included,
    the manager built with WithBufferTime of that duration as its last
    option has exactly that duration as its buffer, no credential, a fresh
    gate that is not ready, and its loop at the first call of GetNewToken.
    The buffer has no effect but in the schedule computation of line 111,
    reached with a token when refreshTime is zero or negative: every other
    step of the loop and every caller operation is the same whatever the
    buffer, a manager with a fixed interval runs the same with any other
    buffer, and at line 111 the delay is the reported lifetime minus the
    buffer, or five seconds when that is negative. *)
Theorem NewTokenManager_accepts_any_buffer (provider : TokenProvider)
    (options : list TokenManagerOption) (d : Duration) :
  let w := NewTokenManager (options ++ [WithBufferTime d]) in
  (bufferTime (tm w) = d /\ currentToken (tm w) = None /\
   chans w = [false] /\ tokenReady (tm w) = 0%nat /\ pc w = AtGetNewToken) /\
  (forall v d', reads_bufferTime v = false ->
     step provider (with_bufferTime d' v) = with_bufferTime d' (step provider v)) /\
  (forall v d',
     GetFullToken (with_bufferTime d' v) = GetFullToken v /\
     GetToken (with_bufferTime d' v) = GetToken v /\
     GetAuthorizationHeader (with_bufferTime d' v) = GetAuthorizationHeader v /\
     (forall req, ApplyToRequest (with_bufferTime d' v) req = ApplyToRequest v req) /\
     (forall gate, WaitForToken gate (with_bufferTime d' v) = WaitForToken gate v /\
                   EnsureValidToken gate (with_bufferTime d' v) =
                   EnsureValidToken gate v)) /\
  (forall d' n, 0 < refreshTime (tm w) ->
     run provider (options ++ [WithBufferTime d']) n =
     with_bufferTime d' (run provider (options ++ [WithBufferTime d]) n)) /\
  (forall v token, pc v = AtSchedule (Some token) -> refreshTime (tm v) <= 0 ->
     pc (step provider v) =
     AtTimer (let x := wrap64 (wrap64 (ExpiresIn token * Second) - bufferTime (tm v)) in
              if x <? 0 then 5 * Second else x)).
Proof.
  intros w. unfold w. split; [|split; [|split; [|split]]].
  - split; [now rewrite NewTokenManager_last_buffer|].
    split; [|repeat split].
    + apply (options_keep_state (options ++ [WithBufferTime d])).
    + apply (options_keep_state (options ++ [WithBufferTime d])).
  - intros v d'. apply step_with_bufferTime.
  - intros v d'. now repeat split.
  - intros d' n Pos. now apply run_with_bufferTime.
  - intros v token P R. rewrite (step_schedule provider v _ P). simpl.
    unfold run_refreshTime. destruct (0 <? refreshTime (tm v)) eqn:E; [|reflexivity].
    apply Z.ltb_lt in E. lia.
Qed.

(** ** EnsureValidToken *)

(** The alias blocks exactly as long as [WaitForToken] does. *)
Lemma EnsureValidToken_blocks (gate : chan) (w : World) :
  EnsureValidToken gate w = None <-> WaitForToken gate w = None.
Proof.
  unfold EnsureValidToken. destruct (WaitForToken gate w); split; congruence.
Qed.

(** C10: whenever EnsureValidToken returns, in any world and for any gate
    its wait has read, the error it returns is nil. *)
Theorem EnsureValidToken_returns_nil (gate : chan) (w : World) (r : option error) :
  EnsureValidToken gate w = Some r -> r = None.
Proof.
  unfold EnsureValidToken. destruct (WaitForToken gate w); congruence.
Qed.

Lemma EnsureValidToken_returns_nil_witness :
  EnsureValidToken 0%nat (run (after_failures 2 token_abc) [] 7) = Some None /\
  attempts (run (after_failures 2 token_abc) [] 7) = 3%nat /\
  @None error = None.
Proof.
  split; [reflexivity|]. split; [reflexivity|].
  exact (EnsureValidToken_returns_nil 0%nat (run (after_failures 2 token_abc) [] 7)
           None eq_refl).
Defined.

(** * Further properties *)

(** ** Options *)

Lemma options_skip_refreshTime (options : list TokenManagerOption) : forall m,
  forallb (fun o => negb (sets_refreshTime o)) options = true ->
  refreshTime (fold_left (fun m o => apply_option o m) options m) = refreshTime m.
Proof.
  induction options as [|o options IH]; intros m F; simpl in *; [reflexivity|].
  apply andb_prop in F as [No F]. rewrite (IH _ F). now destruct o.
Qed.

Lemma options_skip_bufferTime (options : list TokenManagerOption) : forall m,
  forallb (fun o => negb (sets_bufferTime o)) options = true ->
  bufferTime (fold_left (fun m o => apply_option o m) options m) = bufferTime m.
Proof.
  induction options as [|o options IH]; intros m F; simpl in *; [reflexivity|].
  apply andb_prop in F as [No F]. rewrite (IH _ F). now destruct o.
Qed.

Lemma options_skip_onNewToken (options : list TokenManagerOption) : forall m,
  forallb (fun o => negb (sets_onNewToken o)) options = true ->
  onNewToken (fold_left (fun m o => apply_option o m) options m) = onNewToken m.
Proof.
  induction options as [|o options IH]; intros m F; simpl in *; [reflexivity|].
  apply andb_prop in F as [No F]. rewrite (IH _ F). now destruct o.
Qed.

(** Options are applied in the order given, so for each field the last
    option that writes it decides, whatever options of the other kinds come
    before, between or after. *)
Theorem NewTokenManager_last_option_wins (before after : list TokenManagerOption) :
  (forall d, forallb (fun o => negb (sets_refreshTime o)) after = true ->
     refreshTime (tm (NewTokenManager (before ++ WithRefreshTime d :: after))) = d) /\
  (forall d, forallb (fun o => negb (sets_bufferTime o)) after = true ->
     bufferTime (tm (NewTokenManager (before ++ WithBufferTime d :: after))) = d) /\
  (forall cb, forallb (fun o => negb (sets_onNewToken o)) after = true ->
     onNewToken (tm (NewTokenManager (before ++ WithOnNewToken cb :: after))) = cb).
Proof.
  unfold NewTokenManager. simpl. repeat split; intros x F;
    rewrite fold_left_app; simpl.
  - now rewrite options_skip_refreshTime.
  - now rewrite options_skip_bufferTime.
  - now rewrite options_skip_onNewToken.
Qed.

Lemma NewTokenManager_last_option_wins_witness :
  refreshTime (tm (NewTokenManager
     ([WithRefreshTime (59 * Minute)] ++
      WithRefreshTime (30 * Second) :: [WithBufferTime Second; WithOnNewToken (Some quiet)])))
  = 30 * Second.
Proof.
  exact (proj1 (NewTokenManager_last_option_wins [WithRefreshTime (59 * Minute)]
                  [WithBufferTime Second; WithOnNewToken (Some quiet)])
               (30 * Second) eq_refl).
Defined.

(** A field that no option writes keeps the default of the struct literal:
    59 minutes, 60 seconds, no callback. *)
Theorem NewTokenManager_defaults (options : list TokenManagerOption) :
  (forallb (fun o => negb (sets_refreshTime o)) options = true ->
     refreshTime (tm (NewTokenManager options)) = 59 * Minute) /\
  (forallb (fun o => negb (sets_bufferTime o)) options = true ->
     bufferTime (tm (NewTokenManager options)) = 60 * Second) /\
  (forallb (fun o => negb (sets_onNewToken o)) options = true ->
     onNewToken (tm (NewTokenManager options)) = None).
Proof.
  unfold NewTokenManager. simpl. repeat split; intros F.
  - now rewrite options_skip_refreshTime.
  - now rewrite options_skip_bufferTime.
  - now rewrite options_skip_onNewToken.
Qed.

Lemma NewTokenManager_defaults_witness :
  refreshTime (tm (NewTokenManager [WithBufferTime (5 * Second); WithOnNewToken (Some quiet)]))
  = 59 * Minute.
Proof.
  exact (proj1 (NewTokenManager_defaults
                  [WithBufferTime (5 * Second); WithOnNewToken (Some quiet)]) eq_refl).
Defined.

(** ** What the loop keeps *)

(** The loop never writes the configuration: in every world of a run the
    three configured fields are those the constructor left. *)
Theorem run_keeps_configuration (provider : TokenProvider)
    (options : list TokenManagerOption) (n : nat) :
  bufferTime (tm (run provider options n)) = bufferTime (tm (NewTokenManager options)) /\
  refreshTime (tm (run provider options n)) = refreshTime (tm (NewTokenManager options)) /\
  onNewToken (tm (run provider options n)) = onNewToken (tm (NewTokenManager options)).
Proof.
  unfold run. destruct (steps_keep_configuration provider n (NewTokenManager options))
    as (B & R & C).
  split; [exact B|]. split; [exact R | exact C].
Qed.

(** The goroutine never dies at the signal: whenever the loop reaches the
    select of lines 92-96 the current gate is still open, so the default
    case runs and its close is the first close of that channel. *)
Theorem run_never_panics (provider : TokenProvider)
    (options : list TokenManagerOption) (n : nat) :
  let w := run provider options n in
  pc w <> Panicked /\
  (forall token, pc w = AtSignal token ->
     recv_ready (chans w) (tokenReady (tm w)) = false /\
     chan_close (chans w) (tokenReady (tm w)) =
       Some (<[tokenReady (tm w) := true]> (chans w))).
Proof.
  intros w. pose proof (Inv_run provider options n) as I. fold w in I.
  split; [apply (inv_alive _ _ I)|]. intros token P.
  pose proof (inv_gate _ _ I) as G. rewrite P in G. simpl in G.
  split; [unfold recv_ready; now rewrite G | now apply chan_close_open].
Qed.

(** ** Freshness *)

Section Freshness.

Variable provider : TokenProvider.

Lemma last_ok_step (w : World) :
  match pc w with
  | AtStore token =>
      exists k, attempts w = S k /\ delivered (provider k) = Some token /\
                currentToken (tm w) = last_ok provider k
  | _ => currentToken (tm w) = last_ok provider (attempts w)
  end ->
  match pc (step provider w) with
  | AtStore token =>
      exists k, attempts (step provider w) = S k /\
                delivered (provider k) = Some token /\
                currentToken (tm (step provider w)) = last_ok provider k
  | _ => currentToken (tm (step provider w)) =
         last_ok provider (attempts (step provider w))
  end.
Proof.
  unfold step. destruct (pc w) eqn:P; simpl; try (intros H; exact H).
  - intros H. destruct (provider (attempts w)) eqn:R; simpl.
    + exists (attempts w). now rewrite R.
    + exists (attempts w). now rewrite R.
    + now rewrite R.
  - intros (k & -> & R & _). simpl.
    destruct (provider k); simpl in R; congruence.
  - intros H. now destruct (signalReady (chans w) (tokenReady (tm w))).
  - intros H. destruct (onNewToken (tm w)) as [cb|]; simpl; [|exact H].
    now destruct (cb (attempts w) token).
  - intros H. unfold after_schedule. destruct token; [exact H|].
    now destruct (0 <? _).
  - intros H. now rewrite P.
  - intros H. now rewrite P.
  - intros H. now rewrite P.
Qed.

Lemma last_ok_steps (n : nat) : forall w : World,
  match pc w with
  | AtStore token =>
      exists k, attempts w = S k /\ delivered (provider k) = Some token /\
                currentToken (tm w) = last_ok provider k
  | _ => currentToken (tm w) = last_ok provider (attempts w)
  end ->
  match pc (steps provider n w) with
  | AtStore token =>
      exists k, attempts (steps provider n w) = S k /\
                delivered (provider k) = Some token /\
                currentToken (tm (steps provider n w)) = last_ok provider k
  | _ => currentToken (tm (steps provider n w)) =
         last_ok provider (attempts (steps provider n w))
  end.
Proof.
  induction n as [|n IH]; intros w H; simpl; [exact H|].
  now apply IH, last_ok_step.
Qed.

Lemma last_ok_none (n : nat) :
  (forall a, (a < n)%nat -> exists e, provider a = Err e) -> last_ok provider n = None.
Proof.
  induction n as [|n IH]; intros F; simpl; [reflexivity|].
  destruct (F n (Nat.lt_succ_diag_r n)) as [e ->]. apply IH. intros a L. apply F. lia.
Qed.

Lemma run_last_ok (options : list TokenManagerOption) (n : nat) :
  match pc (run provider options n) with
  | AtStore token =>
      exists k, attempts (run provider options n) = S k /\
                delivered (provider k) = Some token /\
                currentToken (tm (run provider options n)) = last_ok provider k
  | _ => currentToken (tm (run provider options n)) =
         last_ok provider (attempts (run provider options n))
  end.
Proof.
  apply last_ok_steps. simpl. apply (options_keep_state options).
Qed.

End Freshness.

(** In every world of a run the current pointer is the one of the latest
    acquisition that returned with a nil error among the attempts made (the
    credential of the latest success, nil when that answer had a nil
    token), an answer that is between lines 79 and 88 not counted yet:
    failures in between leave it in place, and no older or newer credential
    is ever served. *)
Theorem currentToken_is_latest_success (provider : TokenProvider)
    (options : list TokenManagerOption) (n : nat) :
  let w := run provider options n in
  GetFullToken w =
  last_ok provider (match pc w with
                    | AtStore _ => pred (attempts w)
                    | _ => attempts w
                    end).
Proof.
  intros w. unfold GetFullToken.
  pose proof (run_last_ok provider options n) as H. fold w in H.
  destruct (pc w); try exact H.
  destruct H as (k & -> & _ & E). exact E.
Qed.

(** ** Progress of the loop *)

Section Progress.

Variable provider : TokenProvider.



(** The gate of the manager only moves forward. *)
Lemma tokenReady_step (w : World) :
  Inv provider w -> (tokenReady (tm w) <= tokenReady (tm (step provider w)))%nat.
Proof.
  intros I. pose proof (inv_last _ _ I) as L.
  unfold step. destruct (pc w); simpl; try lia.
  - destruct (provider (attempts w)); simpl; lia.
  - destruct (signalReady (chans w) (tokenReady (tm w))); simpl; lia.
  - destruct (onNewToken (tm w)); simpl; lia.
Qed.

Lemma tokenReady_steps (k : nat) : forall w : World,
  Inv provider w -> (tokenReady (tm w) <= tokenReady (tm (steps provider k w)))%nat.
Proof.
  induction k as [|k IH]; intros w I; simpl; [lia|].
  pose proof (tokenReady_step w I). pose proof (IH _ (Inv_step provider w I)). lia.
Qed.

End Progress.



Lemma steps_dead (provider : TokenProvider) (k : nat) (w : World) :
  pc w = Panicked \/ (exists c, pc w = Crashed c) \/ pc w = Stuck ->
  steps provider k w = w.
Proof.
  intros D. induction k as [|k IH]; [reflexivity|].
  now rewrite steps_unfold, (step_dead provider w D).
Qed.

(** Without those conditions the loop can end: a nil token with a nil
    error and no fixed interval end it at line 111, a callback that panics
    or never returns ends it at line 100, and no further attempt is
    made. *)
Remark loop_can_end :
  (forall k, pc (run always_nil [WithRefreshTime 0] (5 + k)) = Crashed NilDereference /\
             attempts (run always_nil [WithRefreshTime 0] (5 + k)) = 1%nat) /\
  (forall k, pc (run (always token_abc) [WithOnNewToken (Some faulty)] (4 + k)) =
             Crashed CallbackPanic /\
             attempts (run (always token_abc) [WithOnNewToken (Some faulty)] (4 + k)) =
             1%nat) /\
  (forall k, pc (run (always token_abc) [WithOnNewToken (Some endless)] (4 + k)) = Stuck /\
             attempts (run (always token_abc) [WithOnNewToken (Some endless)] (4 + k)) =
             1%nat).
Proof.
  repeat split; rewrite run_add, steps_dead; try reflexivity.
  - right. left. now exists NilDereference.
  - right. left. now exists NilDereference.
  - right. left. now exists CallbackPanic.
  - right. left. now exists CallbackPanic.
  - now right; right.
  - now right; right.
Qed.







(** Before the first success nothing is available: in a world of a run in
    which every attempt made so far has failed there is no credential, the
    token and the header are empty, requests are left as they are, and
    every call of WaitForToken is blocked, whichever channel it has read. *)
Theorem nothing_before_first_success (provider : TokenProvider)
    (options : list TokenManagerOption) (n : nat) (gate : nat) (req : Request) :
  let w := run provider options n in
  (forall a, (a < attempts w)%nat -> exists e, provider a = Err e) ->
  GetFullToken w = None /\ GetToken w = EmptyString /\
  GetAuthorizationHeader w = EmptyString /\ ApplyToRequest w req = req /\
  WaitForToken gate w = None /\ EnsureValidToken gate w = None.
Proof.
  intros w F.
  assert (currentToken (tm w) = None) as N.
  { pose proof (run_last_ok provider options n) as H. fold w in H.
    destruct (pc w); try (rewrite H; now apply last_ok_none).
    destruct H as (k & A & R & _). destruct (F k) as [e E]; [lia|].
    rewrite E in R. discriminate R. }
  assert (WaitForToken gate w = None) as B.
  { unfold WaitForToken. destruct (recv_ready (chans w) gate) eqn:C; [|reflexivity].
    destruct (Inv_ready_delivered provider w gate (Inv_run provider options n) C)
      as (a & t & La & Ea).
    destruct (F a La) as [e E]. rewrite E in Ea. discriminate Ea. }
  unfold GetFullToken, GetToken, GetAuthorizationHeader, ApplyToRequest,
    GetAuthorizationHeader, GetFullToken, EnsureValidToken.
  rewrite N, B. now repeat split.
Qed.

Lemma nothing_before_first_success_witness :
  (forall a, (a < attempts (run (after_failures 3 token_abc) [] 4))%nat ->
             exists e, after_failures 3 token_abc a = Err e) /\
  GetToken (run (after_failures 3 token_abc) [] 4) = EmptyString /\
  WaitForToken 0%nat (run (after_failures 3 token_abc) [] 4) = None.
Proof.
  assert (forall a, (a < attempts (run (after_failures 3 token_abc) [] 4))%nat ->
                    exists e, after_failures 3 token_abc a = Err e) as F.
  { intros a L. exists "unavailable". simpl in L.
    destruct a as [|[|a]]; [reflexivity..|lia]. }
  split; [exact F|].
  destruct (nothing_before_first_success (after_failures 3 token_abc) [] 4 0%nat
              (mkRequest "GET" "/" ∅) F) as (_ & G & _ & _ & B & _).
  split; [exact G | exact B].
Defined.

(** ** Waiters and replaced gates *)

(** A waiter is never stranded on a replaced gate: at any later point of
    the run, the channel a call of WaitForToken has read is either still
    the manager's gate or closed, so the call can return. *)
Theorem waiter_never_stranded (provider : TokenProvider)
    (options : list TokenManagerOption) (i k : nat) :
  let gate := tokenReady (tm (run provider options i)) in
  let w := run provider options (i + k) in
  tokenReady (tm w) = gate \/ WaitForToken gate w = Some tt.
Proof.
  intros gate w.
  pose proof (tokenReady_steps provider k _ (Inv_run provider options i)) as M.
  rewrite <- run_add in M. fold gate w in M.
  destruct (decide (tokenReady (tm w) = gate)) as [|Ne]; [now left|right].
  pose proof (Inv_run provider options (i + k)) as I. fold w in I.
  unfold WaitForToken, recv_ready. rewrite (inv_older _ _ I gate); [reflexivity|lia].
Qed.

(** A release is permanent: once a call of WaitForToken can return, it can
    return in every later world of the run. *)
Theorem release_is_permanent (provider : TokenProvider)
    (options : list TokenManagerOption) (gate : nat) (i k : nat) :
  WaitForToken gate (run provider options i) = Some tt ->
  WaitForToken gate (run provider options (i + k)) = Some tt.
Proof.
  unfold WaitForToken. intros R.
  destruct (recv_ready (chans (run provider options i)) gate) eqn:C; [|discriminate].
  rewrite run_add. now rewrite (steps_keep_closed provider k _ gate C).
Qed.

Lemma release_is_permanent_witness :
  WaitForToken 0%nat (run (once token_abc) [] 3) = Some tt /\
  WaitForToken 0%nat (run (once token_abc) [] (3 + 20)) = Some tt.
Proof.
  split; [reflexivity|].
  exact (release_is_permanent (once token_abc) [] 0%nat 3 20 eq_refl).
Defined.

Lemma step_keeps_credential (provider : TokenProvider) (n0 : nat) (w : World) :
  (forall a, (n0 <= a)%nat -> provider a <> Nil) ->
  currentToken (tm w) <> None /\ pc w <> AtStore None /\ (n0 <= attempts w)%nat ->
  currentToken (tm (step provider w)) <> None /\
  pc (step provider w) <> AtStore None /\
  (n0 <= attempts (step provider w))%nat.
Proof.
  intros NoNil (T & P & L). unfold step.
  destruct (pc w) as [| |t|t|t|t|d| | |c|] eqn:Q; simpl.
  - pose proof (NoNil (attempts w) L) as N.
    destruct (provider (attempts w)); simpl; repeat split;
      first [congruence | assumption | lia].
  - repeat split; first [congruence | assumption].
  - destruct t as [t|]; [|congruence].
    repeat split; first [congruence | assumption].
  - destruct (signalReady (chans w) (tokenReady (tm w))); simpl;
      repeat split; first [congruence | assumption].
  - destruct (onNewToken (tm w)) as [cb|]; simpl;
      [|repeat split; first [congruence | assumption]].
    repeat split; try assumption. destruct (cb (attempts w) t); discriminate.
  - repeat split; try assumption. unfold after_schedule.
    destruct t; [discriminate|]. destruct (0 <? _); discriminate.
  - repeat split; first [congruence | assumption].
  - repeat split; first [congruence | assumption].
  - repeat split; try assumption. now rewrite Q.
  - repeat split; try assumption. now rewrite Q.
  - repeat split; try assumption. now rewrite Q.
Qed.

Lemma steps_keep_credential (provider : TokenProvider) (n0 k : nat) :
  forall w : World,
  (forall a, (n0 <= a)%nat -> provider a <> Nil) ->
  currentToken (tm w) <> None /\ pc w <> AtStore None /\ (n0 <= attempts w)%nat ->
  currentToken (tm (steps provider k w)) <> None /\
  pc (steps provider k w) <> AtStore None /\
  (n0 <= attempts (steps provider k w))%nat.
Proof.
  induction k as [|k IH]; intros w NoNil K; simpl; [exact K|].
  apply IH; [assumption|]. now apply step_keeps_credential.
Qed.

(** A published credential is withdrawn by nothing but a later nil token
    with a nil error: once GetFullToken is not nil it is not nil in any
    later world of the run, whatever errors the provider returns
    afterwards, as long as it returns no nil token with a nil error. *)
Theorem credential_never_withdrawn (provider : TokenProvider)
    (options : list TokenManagerOption) (i k : nat) :
  GetFullToken (run provider options i) <> None ->
  (forall a, (pred (attempts (run provider options i)) <= a)%nat ->
             provider a <> Nil) ->
  GetFullToken (run provider options (i + k)) <> None.
Proof.
  unfold GetFullToken. intros T NoNil. rewrite run_add.
  assert (currentToken (tm (run provider options i)) <> None /\
          pc (run provider options i) <> AtStore None /\
          (pred (attempts (run provider options i)) <= attempts (run provider options i))%nat)
    as K.
  { split; [assumption|]. split; [|lia]. intros Q.
    pose proof (run_last_ok provider options i) as H. rewrite Q in H.
    destruct H as (a & A & D & _). apply (NoNil a); [rewrite A; simpl; lia|].
    destruct (provider a); simpl in D; congruence. }
  exact (proj1 (steps_keep_credential provider _ k _ NoNil K)).
Qed.

Lemma credential_never_withdrawn_witness :
  GetFullToken (run (once token_abc) [] 2) <> None /\
  GetFullToken (run (once token_abc) [] (2 + 30)) <> None.
Proof.
  assert (GetFullToken (run (once token_abc) [] 2) <> None) as N by discriminate.
  split; [exact N|].
  apply (credential_never_withdrawn (once token_abc) [] 2 30 N).
  intros [|a] _; discriminate.
Defined.

(** A later nil token with a nil error does withdraw it. *)
Remark credential_withdrawn_by_nil_token :
  GetFullToken (run (then_nil token_abc) [] 2) = Some token_abc /\
  GetFullToken (run (then_nil token_abc) [] 9) = None.
Proof. split; reflexivity. Qed.

(** ** The event log *)

(** Each observation reads only its own kind of event. *)
Ltac log_step :=
  unfold published, notified, logged_errors, sleeps, timers in *;
  rewrite ?omap_app in *; simpl in *; rewrite ?app_nil_r in *.

(** The step taken from a world that satisfies the invariant, program point
    by program point, each with its equation. *)
Ltac step_cases provider w I :=
  let P := fresh "P" in
  let R := fresh "R" in
  let G := fresh "G" in
  pose proof (inv_gate provider w I) as G;
  destruct (pc w) eqn:P; simpl in G;
  [ destruct (provider (attempts w)) eqn:R;
    [ rewrite (step_acquired provider w (Some _) P) by (rewrite R; reflexivity)
    | rewrite (step_acquired provider w None P) by (rewrite R; reflexivity)
    | rewrite (step_failed provider w _ P R) ]
  | rewrite (step_retry provider w P)
  | rewrite (step_store provider w _ P)
  | rewrite (step_signal provider w _ P G)
  | rewrite (step_callback provider w _ P)
  | rewrite (step_schedule provider w _ P)
  | rewrite (step_timer provider w _ P)
  | rewrite (step_newgate provider w P)
  | destruct (inv_alive provider w I P)
  | rewrite (step_dead provider w) by (right; left; eauto)
  | rewrite (step_dead provider w) by (right; right; assumption) ].

(** The cases of the callback and of the schedule inside a step. *)
Ltac case_callback w :=
  try match goal with
      | |- context [match onNewToken (tm w) with _ => _ end] =>
          destruct (onNewToken (tm w))
      end;
  try match goal with
      | |- context [after_callback (?cb ?a ?t) _] => destruct (cb a t)
      end;
  try match goal with
      | |- context [after_schedule ?m ?t] =>
          unfold after_schedule; destruct t; [|destruct (0 <? refreshTime m)]
      end.

Section Log.

Variable provider : TokenProvider.

Lemma callbacks_follow_step (configured : option Callback) (w : World) :
  Inv provider w -> onNewToken (tm w) = configured ->
  callbacks_follow configured w -> callbacks_follow configured (step provider w).
Proof.
  intros I C. unfold callbacks_follow.
  destruct configured as [cb|]; step_cases provider w I; simpl; rewrite ?C;
    intros H; case_callback w; simpl; rewrite ?P;
    log_step; rewrite ?map_app; simpl; try assumption.
  all: now rewrite H.
Qed.

Lemma attempts_accounted_step (w : World) :
  Inv provider w -> attempts_accounted w -> attempts_accounted (step provider w).
Proof.
  intros I. unfold attempts_accounted. intros (A & S & F).
  step_cases provider w I; simpl in *; case_callback w; simpl; rewrite ?P;
    log_step; rewrite ?length_app; simpl; repeat split; try assumption; try lia.
  apply Forall_app. split; [assumption|]. now constructor.
Qed.

Lemma generations_accounted_step (w : World) :
  Inv provider w -> generations_accounted w -> generations_accounted (step provider w).
Proof.
  intros I. unfold generations_accounted. intros (N & T & L).
  step_cases provider w I; simpl in *; case_callback w; simpl; rewrite ?P;
    log_step; rewrite ?length_app, ?map_app, ?length_insert; simpl;
    repeat split; try assumption; try lia.
  - rewrite N. rewrite Nat.add_0_r. now rewrite Nat.add_1_r, seq_S.
  - rewrite N, L. now rewrite Nat.add_0_r, Nat.add_1_r.
Qed.

Lemma after_schedule_nonneg (m : TokenManager) (token : option TokenResponse)
    (d : Duration) :
  after_schedule m token = AtTimer d -> 0 <= d.
Proof.
  unfold after_schedule. destruct token as [t|].
  - intros E. injection E as <-. apply run_refreshTime_nonneg.
  - destruct (0 <? refreshTime m) eqn:Pos; [|discriminate].
    intros E. injection E as <-. apply Z.ltb_lt in Pos. lia.
Qed.

Lemma timers_nonneg_step (w : World) :
  Inv provider w ->
  Forall (fun d => 0 <= d) (timers (events w)) /\ (forall d, pc w = AtTimer d -> 0 <= d) ->
  Forall (fun d => 0 <= d) (timers (events (step provider w))) /\
  (forall d, pc (step provider w) = AtTimer d -> 0 <= d).
Proof.
  intros I (F & T).
  step_cases provider w I; simpl in *;
    try (split; [exact F | intros d' E; exact (after_schedule_nonneg _ _ _ E)]);
    case_callback w; simpl; rewrite ?P;
    log_step; (split; [|try congruence]); try assumption.
  apply Forall_app. split; [assumption|]. constructor; [now apply T|constructor].
Qed.

End Log.

(** With a callback configured, the loop calls it once for every published
    credential, with that credential, in the order of publication and after
    the store and the signal; with none configured it calls nothing. *)
Theorem callback_once_per_publish (provider : TokenProvider)
    (options : list TokenManagerOption) (n : nat) :
  callbacks_follow (onNewToken (tm (NewTokenManager options)))
                   (run provider options n).
Proof.
  induction n as [|n IH].
  - unfold callbacks_follow. now destruct (onNewToken _).
  - unfold run in *. rewrite steps_succ.
    apply callbacks_follow_step; [apply (Inv_run provider options n) | | exact IH].
    apply (steps_keep_configuration provider n (NewTokenManager options)).
Qed.

(** Every call of GetNewToken is accounted for in the log as a publication
    or a logged error (or is the credential about to be stored), every
    logged error is followed by one pause, and every pause is five seconds
    long: there is no backoff and no attempt is dropped. *)
Theorem attempts_are_accounted (provider : TokenProvider)
    (options : list TokenManagerOption) (n : nat) :
  attempts_accounted (run provider options n).
Proof.
  induction n as [|n IH].
  - repeat split. constructor.
  - unfold run in *. rewrite steps_succ.
    apply attempts_accounted_step; [apply (Inv_run provider options n) | exact IH].
Qed.

(** One publication per generation: the credentials were published under
    the gates 0, 1, 2, ... in this order, one under each gate up to the
    current one, the gate has been replaced once per fired timer, and the
    current gate is the last channel made. *)
Theorem one_publish_per_generation (provider : TokenProvider)
    (options : list TokenManagerOption) (n : nat) :
  generations_accounted (run provider options n).
Proof.
  induction n as [|n IH].
  - unfold generations_accounted, NewTokenManager. simpl.
    destruct (options_keep_state options
                (mkTokenManager None None 0%nat (60 * Second) (59 * Minute) None))
      as (_ & -> & _). now repeat split.
  - unfold run in *. rewrite steps_succ.
    apply generations_accounted_step; [apply (Inv_run provider options n) | exact IH].
Qed.

(** No timer is armed with a negative delay, whatever the configuration
    (negative intervals and buffers included) and whatever expires_in the
    provider reports (overflow of the multiplication included). *)
Theorem timers_never_negative (provider : TokenProvider)
    (options : list TokenManagerOption) (n : nat) :
  Forall (fun d => 0 <= d) (timers (events (run provider options n))) /\
  (forall d, pc (run provider options n) = AtTimer d -> 0 <= d).
Proof.
  induction n as [|n IH].
  - split; [constructor | discriminate].
  - unfold run in *. rewrite steps_succ.
    apply timers_nonneg_step; [apply (Inv_run provider options n) | exact IH].
Qed.

(** ** The expiry-based schedule *)

(** With no fixed interval configured (refreshTime zero or negative) and
    away from overflow, the delay is the reported lifetime minus the buffer
    when that difference is positive, zero when it is zero, and the
    five-second fallback when it is negative. *)
Theorem schedule_follows_expiry (m : TokenManager) (token : TokenResponse) :
  refreshTime m <= 0 ->
  - 2 ^ 63 <= ExpiresIn token * Second < 2 ^ 63 ->
  - 2 ^ 63 <= ExpiresIn token * Second - bufferTime m < 2 ^ 63 ->
  (0 <= ExpiresIn token * Second - bufferTime m ->
     run_refreshTime m token = ExpiresIn token * Second - bufferTime m) /\
  (ExpiresIn token * Second - bufferTime m < 0 ->
     run_refreshTime m token = 5 * Second).
Proof.
  intros R E D. rewrite (run_refreshTime_expiry m token R E D).
  destruct (_ <? 0) eqn:N; [apply Z.ltb_lt in N | apply Z.ltb_ge in N]; split; lia.
Qed.

Lemma schedule_follows_expiry_witness :
  run_refreshTime (tm (NewTokenManager [WithRefreshTime 0])) token_abc = 3540 * Second.
Proof.
  apply (schedule_follows_expiry (tm (NewTokenManager [WithRefreshTime 0])) token_abc).
  - apply Z.le_refl.
  - split; [discriminate | reflexivity].
  - split; [discriminate | reflexivity].
  - discriminate.
Defined.

(** With no fixed interval and a negative buffer, away from overflow, the
    refresh is scheduled after the credential's reported lifetime has run
    out: the delay exceeds expires_in seconds by the size of the buffer. *)
Theorem negative_buffer_refreshes_after_expiry (m : TokenManager) (token : TokenResponse) :
  refreshTime m <= 0 -> bufferTime m < 0 -> 0 <= ExpiresIn token ->
  ExpiresIn token * Second - bufferTime m < 2 ^ 63 ->
  run_refreshTime m token = ExpiresIn token * Second - bufferTime m /\
  ExpiresIn token * Second < run_refreshTime m token.
Proof.
  intros R B E D.
  assert (0 <= ExpiresIn token * Second) as P by (unfold Second; lia).
  rewrite run_refreshTime_expiry by lia.
  destruct (_ <? 0) eqn:N; [apply Z.ltb_lt in N; lia | lia].
Qed.

Lemma negative_buffer_refreshes_after_expiry_witness :
  run_refreshTime (tm (NewTokenManager [WithRefreshTime 0; WithBufferTime (- Second)]))
                  token_abc = 3601 * Second /\
  ExpiresIn token_abc * Second <
  run_refreshTime (tm (NewTokenManager [WithRefreshTime 0; WithBufferTime (- Second)]))
                  token_abc.
Proof.
  apply (negative_buffer_refreshes_after_expiry
           (tm (NewTokenManager [WithRefreshTime 0; WithBufferTime (- Second)])) token_abc).
  - apply Z.le_refl.
  - reflexivity.
  - discriminate.
  - reflexivity.
Defined.

(** ** Signing requests *)

(** The header value is empty exactly when no credential is published: a
    credential whose type and access token are both empty still gives the
    one-space value, which ApplyToRequest then sets. *)
Theorem header_empty_iff_no_credential (w : World) (req : Request) :
  (GetAuthorizationHeader w = EmptyString <-> GetFullToken w = None) /\
  (forall token, GetFullToken w = Some token ->
     Header (ApplyToRequest w req) !! "Authorization" =
     Some [TokenType token +:+ " " +:+ AccessToken token]).
Proof.
  unfold GetFullToken. split.
  - split.
    + intros E. destruct (currentToken (tm w)) as [token|] eqn:T; [|reflexivity].
      now destruct (proj2 (GetAuthorizationHeader_value w token T)).
    + intros T. unfold GetAuthorizationHeader, GetFullToken. now rewrite T.
  - intros token T. destruct (GetAuthorizationHeader_value w token T) as [V Ne].
    unfold ApplyToRequest. destruct (decide _) as [E|_]; [contradiction|].
    simpl. unfold Header_Set. now rewrite lookup_insert_eq, V.
Qed.

(** Signing is idempotent, and signing again in a world that has a
    credential wipes what an earlier signing left: the request carries the
    current header value only, as if it had never been signed before. *)
Theorem ApplyToRequest_resign (w1 w2 : World) (req : Request) :
  ApplyToRequest w2 (ApplyToRequest w2 req) = ApplyToRequest w2 req /\
  (GetFullToken w2 <> None ->
   ApplyToRequest w2 (ApplyToRequest w1 req) = ApplyToRequest w2 req).
Proof.
  unfold ApplyToRequest, GetFullToken. split.
  - destruct (decide (GetAuthorizationHeader w2 = EmptyString)) as [E|Ne]; [reflexivity|].
    simpl. unfold Header_Set. now rewrite insert_insert_eq.
  - intros T.
    destruct (decide (GetAuthorizationHeader w2 = EmptyString)) as [E|Ne].
    + destruct (currentToken (tm w2)) as [token|] eqn:C; [|contradiction].
      now destruct (proj2 (GetAuthorizationHeader_value w2 token C)).
    + destruct (decide (GetAuthorizationHeader w1 = EmptyString)); [reflexivity|].
      simpl. unfold Header_Set. now rewrite insert_insert_eq.
Qed.

Lemma ApplyToRequest_resign_witness :
  GetFullToken (run (always token_60s) [] 3) <> None /\
  ApplyToRequest (run (always token_60s) [] 3)
    (ApplyToRequest (run (always token_abc) [] 3) (mkRequest "GET" "/" ∅)) =
  ApplyToRequest (run (always token_60s) [] 3) (mkRequest "GET" "/" ∅).
Proof.
  assert (GetFullToken (run (always token_60s) [] 3) <> None) as N by discriminate.
  split; [exact N|].
  exact (proj2 (ApplyToRequest_resign (run (always token_abc) [] 3)
                  (run (always token_60s) [] 3) (mkRequest "GET" "/" ∅)) N).
Defined.

Lemma ApplyToRequest_other_witness :
  Header (ApplyToRequest (run (always token_abc) [] 3)
            (mkRequest "GET" "/" {["Accept" := ["*/*"]]})) !! "Accept" =
  Some ["*/*"].
Proof.
  assert ("Accept" <> "Authorization") as Ne by discriminate.
  exact (eq_trans
           (proj1 (ApplyToRequest_other (run (always token_abc) [] 3)
                     (mkRequest "GET" "/" {["Accept" := ["*/*"]]}) "Accept" Ne))
           eq_refl).
Defined.

(** The sequence of cmd/gotoken: when EnsureValidToken has returned, in
    whatever world of the run and for whichever channel its wait has read,
    its error is nil and the current pointer is one GetNewToken returned
    with a nil error.  ApplyToRequest in that world sets the Authorization
    entry to the header value of that credential; when the pointer is nil
    it leaves the request unsigned, although EnsureValidToken reported
    success.  With a provider that never returns a nil token with a nil
    error the request does not leave unsigned. *)
Theorem ensured_request_is_signed (provider : TokenProvider)
    (options : list TokenManagerOption) (n : nat) (gate : nat)
    (r : option error) (req : Request) :
  let w := run provider options n in
  EnsureValidToken gate w = Some r ->
  r = None /\
  (exists a, (a < attempts w)%nat /\
             delivered (provider a) = Some (GetFullToken w)) /\
  (forall token, GetFullToken w = Some token ->
     Header (ApplyToRequest w req) !! "Authorization" =
     Some [TokenType token +:+ " " +:+ AccessToken token]) /\
  (GetFullToken w = None -> ApplyToRequest w req = req) /\
  ((forall a, provider a <> Nil) ->
   exists token a,
     provider a = Ok token /\ (a < attempts w)%nat /\
     Header (ApplyToRequest w req) !! "Authorization" =
     Some [TokenType token +:+ " " +:+ AccessToken token]).
Proof.
  intros w E. unfold EnsureValidToken, WaitForToken in E.
  destruct (recv_ready (chans w) gate) eqn:C; [|discriminate].
  split; [congruence|].
  pose proof (Inv_run provider options n) as I. fold w in I.
  assert (forall token, GetFullToken w = Some token ->
            Header (ApplyToRequest w req) !! "Authorization" =
            Some [TokenType token +:+ " " +:+ AccessToken token]) as Signed.
  { intros token T. destruct (GetAuthorizationHeader_value w token T) as [V Ne].
    unfold ApplyToRequest. destruct (decide _) as [|_]; [contradiction|].
    simpl. unfold Header_Set. now rewrite lookup_insert_eq, V. }
  split; [|split; [exact Signed|split]].
  - unfold GetFullToken. destruct (currentToken (tm w)) as [token|] eqn:T.
    + destruct (inv_acquired _ _ I token T) as (a & La & Ea).
      exists a. split; [assumption|]. now rewrite Ea.
    + destruct (inv_present _ _ I (Inv_ready provider w gate I C)) as [N|(a & La & Ea)];
        [congruence|].
      exists a. split; [assumption|]. now rewrite Ea.
  - intros T. unfold ApplyToRequest, GetAuthorizationHeader. now rewrite T.
  - intros NoNil. pose proof (Inv_ready_present provider w gate I C NoNil) as N.
    destruct (currentToken (tm w)) as [token|] eqn:T; [|congruence].
    destruct (inv_acquired _ _ I token T) as (a & La & Ea).
    exists token, a. split; [assumption|]. split; [assumption|]. now apply Signed.
Qed.

Lemma ensured_request_is_signed_witness :
  EnsureValidToken 0%nat (run (after_failures 1 token_abc) [] 5) = Some None /\
  exists token a,
    after_failures 1 token_abc a = Ok token /\
    (a < attempts (run (after_failures 1 token_abc) [] 5))%nat /\
    Header (ApplyToRequest (run (after_failures 1 token_abc) [] 5)
              (mkRequest "GET" "https://httpbin.org/get" ∅)) !! "Authorization" =
    Some [TokenType token +:+ " " +:+ AccessToken token].
Proof.
  split; [reflexivity|].
  apply (proj2 (proj2 (proj2 (proj2
           (ensured_request_is_signed (after_failures 1 token_abc) [] 5 0%nat None
              (mkRequest "GET" "https://httpbin.org/get" ∅) eq_refl))))).
  intros a. unfold after_failures. destruct (a <? 1)%nat; discriminate.
Defined.

(** A nil token returned with a nil error: EnsureValidToken reports success
    and the request leaves without an Authorization entry. *)
Remark ensured_request_unsigned_on_nil_token :
  EnsureValidToken 0%nat (run always_nil [] 3) = Some None /\
  ApplyToRequest (run always_nil [] 3) (mkRequest "GET" "https://httpbin.org/get" ∅) =
  mkRequest "GET" "https://httpbin.org/get" ∅.
Proof. split; reflexivity. Qed.

(** ** The form of the client credentials request *)

Lemma formValues_fold (l : list (string * string)) :
  forall base : gmap string (list string),
  NoDup (l.*1) ->
  fold_left (fun data kv => ClientCredentials.Values_Set (fst kv) (snd kv) data) l base =
  list_to_map (prod_map id (fun v => [v]) <$> l) ∪ base.
Proof.
  induction l as [|[k v] l IH]; intros base ND; simpl.
  - now rewrite (left_id_L ∅ (∪)).
  - apply NoDup_cons in ND as [Nk ND]. rewrite (IH _ ND).
    unfold ClientCredentials.Values_Set. rewrite <- insert_union_l.
    symmetry. apply insert_union_r.
    apply not_elem_of_list_to_map_1.
    rewrite <- list_fmap_compose.
    now replace (fst ∘ prod_map id (fun v0 : string => [v0])) with (@fst string string)
      by reflexivity.
Qed.

(** The form does not depend on the order in which Go ranges over
    ExtraParams: it is the standard parameters overlaid with the extra
    ones, each as a single value. *)
Theorem formValues_order_independent (p : ClientCredentials.Provider)
    (order : list (string * string)) :
  order ≡ₚ map_to_list (ClientCredentials.ExtraParams p) ->
  ClientCredentials.formValues p order =
  ((fun v => [v]) <$> ClientCredentials.ExtraParams p) ∪
  ClientCredentials.standardValues p.
Proof.
  intros Perm. unfold ClientCredentials.formValues.
  assert (NoDup (order.*1)) as ND.
  { rewrite Perm. apply NoDup_fst_map_to_list. }
  rewrite (formValues_fold order _ ND). f_equal.
  rewrite list_to_map_fmap. f_equal.
  rewrite (list_to_map_proper order (map_to_list (ClientCredentials.ExtraParams p)) ND Perm).
  apply list_to_map_to_list.
Qed.

(** An extra parameter replaces the standard parameter of the same name,
    grant_type, client_id and client_secret included; a standard parameter
    without a namesake is sent as configured; and scope is left out of the
    form when it is empty and not given as an extra parameter. *)
Theorem formValues_lookup (p : ClientCredentials.Provider)
    (order : list (string * string)) :
  order ≡ₚ map_to_list (ClientCredentials.ExtraParams p) ->
  (forall k v, ClientCredentials.ExtraParams p !! k = Some v ->
     ClientCredentials.formValues p order !! k = Some [v]) /\
  (ClientCredentials.ExtraParams p !! "grant_type" = None ->
     ClientCredentials.formValues p order !! "grant_type" = Some ["client_credentials"]) /\
  (ClientCredentials.ExtraParams p !! "client_id" = None ->
     ClientCredentials.formValues p order !! "client_id" =
     Some [ClientCredentials.ClientID p]) /\
  (ClientCredentials.ExtraParams p !! "client_secret" = None ->
     ClientCredentials.formValues p order !! "client_secret" =
     Some [ClientCredentials.ClientSecret p]) /\
  (ClientCredentials.ExtraParams p !! "scope" = None ->
     ClientCredentials.formValues p order !! "scope" =
     if decide (ClientCredentials.Scope p = EmptyString) then None
     else Some [ClientCredentials.Scope p]).
Proof.
  intros Perm.
  assert (ClientCredentials.formValues p order =
          ((fun v => [v]) <$> ClientCredentials.ExtraParams p) ∪
          ClientCredentials.standardValues p) as ->.
  { unfold ClientCredentials.formValues.
    assert (NoDup (order.*1)) as ND by (rewrite Perm; apply NoDup_fst_map_to_list).
    rewrite (formValues_fold order _ ND). f_equal.
    rewrite list_to_map_fmap. f_equal.
    rewrite (list_to_map_proper order _ ND Perm). apply list_to_map_to_list. }
  split; [|repeat split]; intros.
  - apply lookup_union_Some_l. rewrite lookup_fmap. now rewrite H.
  - rewrite lookup_union_r by (rewrite lookup_fmap; now rewrite H).
    unfold ClientCredentials.standardValues, ClientCredentials.Values_Set.
    destruct (decide _); now simplify_map_eq.
  - rewrite lookup_union_r by (rewrite lookup_fmap; now rewrite H).
    unfold ClientCredentials.standardValues, ClientCredentials.Values_Set.
    destruct (decide _); now simplify_map_eq.
  - rewrite lookup_union_r by (rewrite lookup_fmap; now rewrite H).
    unfold ClientCredentials.standardValues, ClientCredentials.Values_Set.
    destruct (decide _); now simplify_map_eq.
  - rewrite lookup_union_r by (rewrite lookup_fmap; now rewrite H).
    unfold ClientCredentials.standardValues, ClientCredentials.Values_Set.
    destruct (decide _); now simplify_map_eq.
Qed.

Lemma formValues_order_independent_witness :
  ClientCredentials.formValues
    (ClientCredentials.mkProvider "https://example.com/oauth/token" "id" "secret"
       "read write" (<["audience" := "api"]> {["resource" := "r1"]}))
    [("audience", "api"); ("resource", "r1")] =
  ClientCredentials.formValues
    (ClientCredentials.mkProvider "https://example.com/oauth/token" "id" "secret"
       "read write" (<["audience" := "api"]> {["resource" := "r1"]}))
    [("resource", "r1"); ("audience", "api")].
Proof.
  assert ([("audience", "api"); ("resource", "r1")] ≡ₚ
          map_to_list (<["audience" := "api"]> ({["resource" := "r1"]} : gmap string string)))
    as Forward.
  { rewrite map_to_list_insert by (apply lookup_singleton_ne; discriminate).
    now rewrite map_to_list_singleton. }
  assert ([("resource", "r1"); ("audience", "api")] ≡ₚ
          map_to_list (<["audience" := "api"]> ({["resource" := "r1"]} : gmap string string)))
    as Backward.
  { rewrite <- Forward. apply perm_swap. }
  rewrite (formValues_order_independent
             (ClientCredentials.mkProvider "https://example.com/oauth/token" "id" "secret"
                "read write" (<["audience" := "api"]> {["resource" := "r1"]}))
             [("audience", "api"); ("resource", "r1")] Forward).
  rewrite (formValues_order_independent
             (ClientCredentials.mkProvider "https://example.com/oauth/token" "id" "secret"
                "read write" (<["audience" := "api"]> {["resource" := "r1"]}))
             [("resource", "r1"); ("audience", "api")] Backward).
  reflexivity.
Defined.

Lemma formValues_lookup_witness :
  ClientCredentials.formValues
    (ClientCredentials.mkProvider "https://example.com/oauth/token" "id" "secret"
       EmptyString {["grant_type" := "password"]})
    [("grant_type", "password")] !! "grant_type" = Some ["password"].
Proof.
  apply (proj1 (formValues_lookup
           (ClientCredentials.mkProvider "https://example.com/oauth/token" "id" "secret"
              EmptyString {["grant_type" := "password"]})
           [("grant_type", "password")]
           ltac:(simpl; now rewrite map_to_list_singleton))).
  simpl. apply lookup_singleton_eq.
Defined.
